(** * SwampLocks: the portfolio weight optimizer

    A shallow embedding of [optimizePortfolio] (the DiversityOptimizer
    component of the SwampLocks frontend) and the proofs of its
    specification.

    Numbers.  The TypeScript source computes on IEEE doubles.  This
    development reads every [number] as an exact rational ([Q]), the
    arithmetic the specification itself appeals to ("exactly, in exact
    rational arithmetic"): rounding, NaN and the infinities are not
    modelled.  Equality of rationals is [Qeq] ([==]).  No division of the
    general branch is ever by zero (the divisors are [freeCount], which
    is tested against 0, [2 * (1 - alpha)] with [alpha] different from 1,
    and a positive [sumW]), so the convention [x / 0 == 0] of [Q] is
    never exercised.

    Arrays.  [weights] is a JavaScript array written by index; it is a
    [list Q] with [store].  Every index written or read comes from
    [active], whose members stay below [n] (lemma [reachable_inv]), so
    the out-of-range behaviour of a JavaScript array (growing on write,
    [undefined] on read) is never reached and is not modelled.

    Errors.  The source has no [throw]; the only expression that can
    raise is a property read on [undefined], [items[i].performance].
    It is modelled in the error monad [result].

    Other components.  After the optimizer the file embeds, from the same
    source file, the totals and the bubble layout of [UserPortfolio]
    (module [UserPortfolio], over [Q], the prediction service being an
    arbitrary function of the request number) and [computeCorrelation] of
    [MultiStockSearchChart] (module [Correlation], over the exact reals
    because of the square root).

    Binary64.  The last part (module [Doubles]) repeats the optimizer on
    IEEE 754 binary64 numbers and records the inputs on which rounding or
    overflow make the code differ from its exact-arithmetic behaviour;
    the theorems about weights, optimality and monotonicity in the first
    part are theorems of exact arithmetic. *)

From Stdlib Require Import String.
From Stdlib Require Import Reals.
From Stdlib Require PrimFloat.
From Stdlib Require Import ZArith QArith Qminmax List Arith Lia Lqa Psatz Bool.
From Equations Require Import Equations.
Import ListNotations.

Open Scope Q_scope.

(** ** Data model *)

(** [{ sector: string; performance: number }] *)
Record Item : Type := mkItem {
  sector : string;
  performance : Q
}.

(** [{ sector: string; performance: number; weight: number }] *)
Record WeightedItem : Type := mkWeightedItem {
  w_sector : string;
  w_performance : Q;
  weight : Q
}.

(** ** The error monad of property reads *)

Inductive result (A : Type) : Type :=
| Ok (a : A)
| TypeError.
Arguments Ok {A} a.
Arguments TypeError {A}.

Definition bind {A B : Type} (c : result A) (k : A -> result B) : result B :=
  match c with
  | Ok a => k a
  | TypeError => TypeError
  end.

Notation "x <- c ;; k" := (bind c (fun x => k))
  (at level 61, c at next level, right associativity).
Notation "' p <- c ;; k" := (bind c (fun p => k))
  (at level 61, p pattern, c at next level, right associativity).

(** [items[i].performance]: a [TypeError] when [items[i]] is [undefined]. *)
Definition performance_at (items : list Item) (i : nat) : result Q :=
  match nth_error items i with
  | Some x => Ok (performance x)
  | None => TypeError
  end.

(** [for (let i = start; i < start + count; i++) body], threading the
    loop-carried variables [s]. *)
Fixpoint for_loop {St : Type} (body : nat -> St -> result St)
    (i count : nat) (s : St) : result St :=
  match count with
  | O => Ok s
  | S c => s' <- body i s ;; for_loop body (S i) c s'
  end.

(** ** Array helpers *)

(** [items.map((x, i) => f(x, i))] *)
Fixpoint mapi_from {A B : Type} (f : A -> nat -> B) (i : nat) (l : list A)
    : list B :=
  match l with
  | [] => []
  | x :: t => f x i :: mapi_from f (S i) t
  end.

Definition mapi {A B : Type} (f : A -> nat -> B) (l : list A) : list B :=
  mapi_from f 0 l.

(** [weights[i] = v] for an index inside the array. *)
Fixpoint store (ws : list Q) (i : nat) (v : Q) : list Q :=
  match ws, i with
  | [], _ => []
  | _ :: t, O => v :: t
  | x :: t, S j => x :: store t j v
  end.

(** [x < y] on numbers. *)
Definition Qltb (x y : Q) : bool := negb (Qle_bool y x).

(** [freeCount] used as a number. *)
Definition Qnat (k : nat) : Q := inject_Z (Z.of_nat k).

(** ** The active-set loop *)

(** How one pass through the body of [while (true)] ends: one of the four
    [break]s, or a new pass with the shrunk active set. *)
Inductive Exit : Type :=
| ExitEmpty        (* freeCount === 0 *)
| ExitUniform      (* sumW <= 0: weights 1 / freeCount *)
| ExitNormalized   (* weights divided by sumW *)
| ExitUnchanged.   (* newActive.length === active.length *)

Inductive LoopStep : Type :=
| Break (e : Exit) (weights : list Q)
| Continue (weights : list Q) (active : list nat).

(** [active.reduce((acc, i) => acc + r[i], 0)] *)
Definition sumR (r : list Q) (active : list nat) : Q :=
  fold_left (fun acc i => acc + nth i r 0) active 0.

(** [(alpha * sumR - 2 * (1 - alpha)) / freeCount] *)
Definition lambda_of (alpha : Q) (r : list Q) (active : list nat) : Q :=
  (alpha * sumR r active - 2 * (1 - alpha)) / Qnat (length active).

(** [(alpha * r[i] - lambda) / (2 * (1 - alpha))] *)
Definition w_of (alpha lambda : Q) (r : list Q) (i : nat) : Q :=
  (alpha * nth i r 0 - lambda) / (2 * (1 - alpha)).

(** The loop computing the provisional weights and [anyNegative]. *)
Definition provisional (alpha lambda : Q) (r : list Q)
    (weights : list Q) (active : list nat) : list Q * bool :=
  fold_left
    (fun (st : list Q * bool) i =>
       let w_i := w_of alpha lambda r i in
       (store (fst st) i w_i, if Qltb w_i 0 then true else snd st))
    active (weights, false).

(** [for (const i of active) sumW += weights[i]] *)
Definition sumW (weights : list Q) (active : list nat) : Q :=
  fold_left (fun acc i => acc + nth i weights 0) active 0.

(** [for (const i of active) weights[i] = 1 / freeCount] *)
Definition uniform (weights : list Q) (active : list nat) : list Q :=
  fold_left (fun ws i => store ws i (1 / Qnat (length active))) active weights.

(** [for (const i of active) weights[i] /= sumW] *)
Definition normalize (s : Q) (weights : list Q) (active : list nat) : list Q :=
  fold_left (fun ws i => store ws i (nth i ws 0 / s)) active weights.

(** The loop building [newActive] and zeroing the dropped indices. *)
Definition shrink (weights : list Q) (active : list nat)
    : list nat * list Q :=
  fold_left
    (fun (st : list nat * list Q) i =>
       if Qltb 0 (nth i (snd st) 0)
       then (fst st ++ [i], snd st)
       else (fst st, store (snd st) i 0))
    active ([], weights).

(** One pass through the body of [while (true)]. *)
Definition loop_iter (alpha : Q) (r : list Q)
    (weights : list Q) (active : list nat) : LoopStep :=
  let freeCount := length active in
  if Nat.eqb freeCount 0 then Break ExitEmpty weights
  else
    let lambda := lambda_of alpha r active in
    let (weights1, anyNegative) := provisional alpha lambda r weights active in
    if negb anyNegative then
      let s := sumW weights1 active in
      if Qle_bool s 0
      then Break ExitUniform (uniform weights1 active)
      else Break ExitNormalized (normalize s weights1 active)
    else
      let (newActive, weights2) := shrink weights1 active in
      if Nat.eqb (length newActive) (length active)
      then Break ExitUnchanged weights2
      else Continue weights2 newActive.

(** The test [weights[i] > 0] of the removal loop. *)
Definition positive_at (ws : list Q) (i : nat) : bool := Qltb 0 (nth i ws 0).

(** ** Termination of the loop

    What the definition of the loop needs: the removal loop keeps the
    indices that pass its test, so the guard on the lengths makes the
    active set strictly shorter. *)

Lemma store_length ws i v : length (store ws i v) = length ws.
Proof.
  revert i; induction ws as [|x t IH]; intros [|j]; simpl; auto.
Qed.

Lemma nth_store_eq ws i v d :
  (i < length ws)%nat -> nth i (store ws i v) d = v.
Proof.
  revert i; induction ws as [|x t IH]; intros [|j] H; simpl in *;
    try lia; auto.
  apply IH; lia.
Qed.

Lemma nth_store_neq ws i j v d :
  i <> j -> nth j (store ws i v) d = nth j ws d.
Proof.
  revert i j; induction ws as [|x t IH]; intros [|i] [|j] H; simpl;
    try congruence; auto.
Qed.

Lemma Qltb_irrefl x : Qltb x x = false.
Proof.
  unfold Qltb. destruct (Qle_bool x x) eqn:E; auto.
  assert (Qle_bool x x = true) by (apply Qle_bool_iff; apply Qle_refl).
  congruence.
Qed.

Lemma positive_at_store_zero ws i j :
  positive_at ws i = false ->
  positive_at (store ws i 0) j = positive_at ws j.
Proof.
  intros Hi. unfold positive_at in *.
  destruct (Nat.eq_dec i j) as [->|Hne].
  - destruct (Nat.lt_ge_cases j (length ws)) as [Hlt|Hge].
    + rewrite nth_store_eq by assumption. rewrite Hi. apply Qltb_irrefl.
    + rewrite !nth_overflow by (rewrite ?store_length; assumption).
      reflexivity.
  - rewrite nth_store_neq by assumption. reflexivity.
Qed.

Lemma filter_positive_store_zero ws i l :
  positive_at ws i = false ->
  filter (positive_at (store ws i 0)) l = filter (positive_at ws) l.
Proof.
  intros Hi. apply filter_ext. intros j.
  apply positive_at_store_zero; assumption.
Qed.

Lemma shrink_fold_fst active : forall na ws,
  fst (fold_left
         (fun (st : list nat * list Q) i =>
            if Qltb 0 (nth i (snd st) 0)
            then (fst st ++ [i], snd st)
            else (fst st, store (snd st) i 0))
         active (na, ws))
  = na ++ filter (positive_at ws) active.
Proof.
  induction active as [|i l IH]; intros na ws; simpl.
  - rewrite app_nil_r. reflexivity.
  - fold (positive_at ws i).
    destruct (positive_at ws i) eqn:E; simpl; rewrite IH.
    + rewrite <- app_assoc. reflexivity.
    + rewrite filter_positive_store_zero by assumption. reflexivity.
Qed.

Lemma shrink_fst ws active :
  fst (shrink ws active) = filter (positive_at ws) active.
Proof. unfold shrink. rewrite shrink_fold_fst. reflexivity. Qed.

Lemma filter_length_le {A} (p : A -> bool) l :
  (length (filter p l) <= length l)%nat.
Proof.
  induction l as [|x t IH]; simpl; auto.
  destruct (p x); simpl; lia.
Qed.

(** A pass that does not [break] hands a strictly shorter active set to
    the next one: the guard [newActive.length === active.length]. *)
Lemma loop_iter_shrinks alpha r weights active weights' active' :
  loop_iter alpha r weights active = Continue weights' active' ->
  (length active' < length active)%nat.
Proof.
  unfold loop_iter.
  destruct (Nat.eqb (length active) 0); [discriminate|].
  destruct (provisional _ _ _ _ _) as [weights1 anyNegative].
  destruct (negb anyNegative).
  - destruct (Qle_bool _ _); discriminate.
  - destruct (shrink weights1 active) as [newActive weights2] eqn:Hs.
    destruct (Nat.eqb (length newActive) (length active)) eqn:Hlen;
      [discriminate|].
    intros H; inversion H; subst; clear H.
    apply Nat.eqb_neq in Hlen.
    assert (Hf : active' = filter (positive_at weights1) active).
    { rewrite <- shrink_fst, Hs. reflexivity. }
    pose proof (filter_length_le (positive_at weights1) active) as Hle.
    rewrite <- Hf in Hle. lia.
Qed.

(** ** The loop and the function *)

Definition inspect {A : Type} (a : A) : {b : A | a = b} :=
  exist _ a eq_refl.

(** [while (true) { ... }]: the final [weights], and (a ghost counter) the
    number of passes through the body.  The recursion is justified by
    [loop_iter_shrinks]. *)
Equations? while_loop (alpha : Q) (r : list Q)
    (weights : list Q) (active : list nat) : list Q * nat
    by wf (length active) lt :=
  while_loop alpha r weights active
    with inspect (loop_iter alpha r weights active) := {
    | exist _ (Break _ w) _ => (w, 1%nat)
    | exist _ (Continue w a) Hstep =>
        let res := while_loop alpha r w a in (fst res, S (snd res)) }.
Proof.
  eapply loop_iter_shrinks; eassumption.
Qed.

(** The first index of greatest performance, as the [alpha === 1] branch
    finds it: [maxIdx] and [maxPerf] after the [for] loop. *)
Definition find_max (items : list Item) : result (nat * Q) :=
  maxPerf0 <- performance_at items 0 ;;
  for_loop
    (fun i (st : nat * Q) =>
       p <- performance_at items i ;;
       if Qltb (snd st) p then Ok (i, p) else Ok st)
    1 (length items - 1) (0%nat, maxPerf0).

Definition optimizePortfolio (items : list Item) (alpha : Q)
    : result (list WeightedItem) :=
  let n := length items in
  if Nat.eqb n 0 then Ok []
  else if Qeq_bool alpha 1 then
    st <- find_max items ;;
    let maxIdx := fst st in
    Ok (mapi (fun x i =>
                {| w_sector := sector x;
                   w_performance := performance x;
                   weight := if Nat.eqb i maxIdx then 1 else 0 |})
             items)
  else
    let r := map performance items in
    let weights := repeat 0 n in
    let active := seq 0 n in
    let weights' := fst (while_loop alpha r weights active) in
    Ok (mapi (fun x i =>
                {| w_sector := sector x;
                   w_performance := performance x;
                   weight := nth i weights' 0 |})
             items).

(** The number of passes through the body of the active-set loop in a call
    (none when the function returns before reaching it). *)
Definition loop_passes (items : list Item) (alpha : Q) : nat :=
  let n := length items in
  if Nat.eqb n 0 then 0%nat
  else if Qeq_bool alpha 1 then 0%nat
  else snd (while_loop alpha (map performance items) (repeat 0 n) (seq 0 n)).

(** ** The quadratic program and the states of the loop *)

(** The sum of a list of numbers. *)
Definition Qsum (l : list Q) : Q := fold_right Qplus 0 l.

(** [alpha * sum_i (r_i * w_i) - (1 - alpha) * sum_i (w_i ^ 2)] *)
Definition objective (alpha : Q) (r w : list Q) : Q :=
  alpha * Qsum (map (fun rw => fst rw * snd rw) (combine r w))
  - (1 - alpha) * Qsum (map (fun x => x * x) w).

(** [sum_i w_i = 1] and [w_i >= 0], for a vector of [n] weights. *)
Definition feasible (n : nat) (w : list Q) : Prop :=
  length w = n /\ Forall (fun x => 0 <= x) w /\ Qsum w == 1.

(** The weights of a result. *)
Definition weights_of (out : list WeightedItem) : list Q := map weight out.

(** The result of a call carrying the weights [g 0, g 1, ...]. *)
Definition weighted (g : nat -> Q) (items : list Item) : list WeightedItem :=
  mapi (fun x i => {| w_sector := sector x;
                      w_performance := performance x;
                      weight := g i |}) items.

(** [m] is the first index of greatest performance. *)
Definition is_first_max (r : list Q) (m : nat) : Prop :=
  (m < length r)%nat /\
  (forall j, (j < length r)%nat -> nth j r 0 <= nth m r 0) /\
  (forall j, (j < m)%nat -> nth j r 0 < nth m r 0).

(** A loop [for (const i of l) weights[i] = g(i)]: the shape of the loop
    of the provisional weights and of the uniform fallback. *)
Definition store_all (g : nat -> Q) (l : list nat) (ws : list Q) : list Q :=
  fold_left (fun ws i => store ws i (g i)) l ws.

(** The loop invariant: [weights] has [n] slots, [active] is an increasing
    selection of the indices below [n], never empty, and a slot outside
    [active] holds 0. *)
Record loop_inv (n : nat) (ws : list Q) (active : list nat) : Prop := {
  inv_length : length ws = n;
  inv_active : exists p, active = filter p (seq 0 n);
  inv_zero : forall j, ~ In j active -> nth j ws 0 = 0;
  inv_nonempty : active <> []
}.

(** [reaches alpha r ws a ws' a']: the loop started with [weights = ws]
    and [active = a] comes, after some passes that do not [break], to the
    top of the body with [weights = ws'] and [active = a']. *)
Inductive reaches (alpha : Q) (r : list Q)
    : list Q -> list nat -> list Q -> list nat -> Prop :=
| reaches_here ws a : reaches alpha r ws a ws a
| reaches_next ws a ws1 a1 ws2 a2 :
    loop_iter alpha r ws a = Continue ws1 a1 ->
    reaches alpha r ws1 a1 ws2 a2 ->
    reaches alpha r ws a ws2 a2.

(** The states at the top of the loop body in a call on [n >= 1] items. *)
Definition reachable (alpha : Q) (r : list Q) (ws : list Q) (a : list nat)
    : Prop :=
  reaches alpha r (repeat 0 (length r)) (seq 0 (length r)) ws a.

(** The Karush-Kuhn-Tucker conditions of the quadratic program at [w] with
    multiplier [lambda]: [w] is feasible, the gradient
    [alpha * r_j - 2 * (1 - alpha) * w_j] of the objective equals [lambda]
    where [w_j > 0] and is at most [lambda] where [w_j = 0]. *)
Definition kkt (alpha lambda : Q) (r w : list Q) : Prop :=
  length w = length r /\
  Qsum w == 1 /\
  forall j, (j < length r)%nat ->
    0 <= nth j w 0 /\
    alpha * nth j r 0 - 2 * (1 - alpha) * nth j w 0 <= lambda /\
    (0 < nth j w 0 ->
     alpha * nth j r 0 - 2 * (1 - alpha) * nth j w 0 == lambda).

(** What the loop knows about the indices it dropped: their gradient at
    weight 0 does not exceed the multiplier of the current active set. *)
Definition dual_inv (alpha : Q) (r : list Q) (active : list nat) : Prop :=
  forall j, (j < length r)%nat -> ~ In j active ->
    alpha * nth j r 0 <= lambda_of alpha r active.

(** ** The examples of the specification *)

Definition items_ABC : list Item :=
  [mkItem "A" (5 # 100); mkItem "B" (20 # 100); mkItem "C" (10 # 100)].

Definition items_tie : list Item :=
  [mkItem "A" (1 # 10); mkItem "B" (1 # 10)].

Definition items_equal : list Item :=
  [mkItem "A" (1 # 10); mkItem "B" (1 # 10); mkItem "C" (1 # 10)].

Definition items_negative : list Item :=
  [mkItem "A" (5 # 10); mkItem "B" (-5 # 1); mkItem "C" (3 # 10);
   mkItem "D" (4 # 10)].

(** The weights of a result, in lowest terms. *)
Definition reduced_weights (res : result (list WeightedItem)) : list Q :=
  match res with
  | Ok out => map Qred (weights_of out)
  | TypeError => []
  end.

(** * Proofs *)

(** ** Sums *)

Section Sums.
Context {A : Type}.
Implicit Types (f g : A -> Q) (l : list A).

Lemma fold_left_Qsum f l : forall a,
  fold_left (fun acc i => acc + f i) l a == a + Qsum (map f l).
Proof.
  induction l as [|x t IH]; intros a; simpl.
  - ring.
  - rewrite IH. ring.
Qed.

Lemma Qsum_map_ext f g l :
  (forall x, In x l -> f x == g x) ->
  Qsum (map f l) == Qsum (map g l).
Proof.
  induction l as [|x t IH]; intros H; simpl.
  - reflexivity.
  - rewrite (H x) by (left; reflexivity).
    rewrite IH by (intros; apply H; right; assumption).
    reflexivity.
Qed.

Lemma Qsum_map_le f g l :
  (forall x, In x l -> f x <= g x) ->
  Qsum (map f l) <= Qsum (map g l).
Proof.
  induction l as [|x t IH]; intros H; simpl.
  - apply Qle_refl.
  - apply Qplus_le_compat.
    + apply H; left; reflexivity.
    + apply IH; intros; apply H; right; assumption.
Qed.

Lemma Qsum_map_lt f g l x0 :
  (forall x, In x l -> f x <= g x) ->
  In x0 l -> f x0 < g x0 ->
  Qsum (map f l) < Qsum (map g l).
Proof.
  induction l as [|x t IH]; intros H Hin Hlt; simpl.
  - destruct Hin.
  - destruct Hin as [->|Hin].
    + apply Qplus_lt_le_compat; [assumption|].
      apply Qsum_map_le; intros; apply H; right; assumption.
    + assert (f x <= g x) by (apply H; left; reflexivity).
      assert (Qsum (map f t) < Qsum (map g t))
        by (apply IH; auto; intros; apply H; right; assumption).
      lra.
Qed.

Lemma Qsum_map_plus f g l :
  Qsum (map (fun x => f x + g x) l) == Qsum (map f l) + Qsum (map g l).
Proof.
  induction l as [|x t IH]; simpl.
  - ring.
  - rewrite IH. ring.
Qed.

Lemma Qsum_map_scale k f l :
  Qsum (map (fun x => k * f x) l) == k * Qsum (map f l).
Proof.
  induction l as [|x t IH]; simpl.
  - ring.
  - rewrite IH. ring.
Qed.

Lemma Qsum_map_const k l :
  Qsum (map (fun _ => k) l) == Qnat (length l) * k.
Proof.
  induction l as [|x t IH].
  - simpl. unfold Qnat. simpl. ring.
  - change (Qsum (map (fun _ => k) (x :: t)))
      with (k + Qsum (map (fun _ => k) t)).
    rewrite IH. unfold Qnat. simpl length.
    rewrite Nat2Z.inj_succ, <- Z.add_1_r, inject_Z_plus. ring.
Qed.

Lemma Qsum_filter_split f (p : A -> bool) l :
  Qsum (map f l) ==
  Qsum (map f (filter p l)) + Qsum (map f (filter (fun x => negb (p x)) l)).
Proof.
  induction l as [|x t IH]; simpl.
  - ring.
  - destruct (p x); simpl; rewrite IH; ring.
Qed.

Lemma Qsum_map_zero f l :
  (forall x, In x l -> f x == 0) -> Qsum (map f l) == 0.
Proof.
  induction l as [|x t IH]; intros H; simpl.
  - reflexivity.
  - rewrite (H x) by (left; reflexivity).
    rewrite IH by (intros; apply H; right; assumption).
    ring.
Qed.

Lemma filter_filter_andb (p q : A -> bool) l :
  filter q (filter p l) = filter (fun x => p x && q x) l.
Proof.
  induction l as [|x t IH]; simpl; auto.
  destruct (p x); simpl; rewrite ?IH; auto.
Qed.
End Sums.

Lemma Qsum_nth_from (l : list Q) : forall s,
  Qsum l == Qsum (map (fun i => nth (i - s) l 0) (seq s (length l))).
Proof.
  induction l as [|x t IH]; intros s; simpl.
  - reflexivity.
  - rewrite Nat.sub_diag. rewrite (IH (S s)).
    apply Qplus_comp; [reflexivity|].
    apply Qsum_map_ext. intros i Hi. apply in_seq in Hi.
    replace (i - s)%nat with (S (i - S s)) by lia. reflexivity.
Qed.

Lemma Qsum_nth (l : list Q) :
  Qsum l == Qsum (map (fun i => nth i l 0) (seq 0 (length l))).
Proof.
  rewrite (Qsum_nth_from l 0). apply Qsum_map_ext.
  intros i _. rewrite Nat.sub_0_r. reflexivity.
Qed.

Lemma Qnat_pos k : (0 < k)%nat -> 0 < Qnat k.
Proof.
  intros H. unfold Qnat. change 0 with (inject_Z 0).
  rewrite <- Zlt_Qlt. lia.
Qed.

Lemma Qltb_true x y : Qltb x y = true <-> x < y.
Proof.
  unfold Qltb. rewrite negb_true_iff. split.
  - intros H. apply Qnot_le_lt. intros Hle.
    apply Qle_bool_iff in Hle. congruence.
  - intros H. destruct (Qle_bool y x) eqn:E; auto.
    apply Qle_bool_iff in E. apply Qlt_not_le in H. contradiction.
Qed.

Lemma Qltb_false x y : Qltb x y = false <-> y <= x.
Proof.
  unfold Qltb. rewrite negb_false_iff. apply Qle_bool_iff.
Qed.

(** ** The inner loops, index by index *)

Section InnerLoops.
Implicit Types (ws : list Q) (l active : list nat) (g : nat -> Q).

Lemma store_all_length g l : forall ws,
  length (store_all g l ws) = length ws.
Proof.
  induction l as [|i t IH]; intros ws; simpl; auto.
  unfold store_all in *. simpl. rewrite IH. apply store_length.
Qed.

Lemma nth_store_all_notin g l : forall ws j,
  ~ In j l -> nth j (store_all g l ws) 0 = nth j ws 0.
Proof.
  induction l as [|i t IH]; intros ws j Hj; simpl; auto.
  unfold store_all in *. simpl. rewrite IH.
  - apply nth_store_neq. intros ->. apply Hj. left; reflexivity.
  - intros H. apply Hj. right; assumption.
Qed.

Lemma nth_store_all_in g l : forall ws j,
  In j l -> (j < length ws)%nat -> nth j (store_all g l ws) 0 = g j.
Proof.
  induction l as [|i t IH]; intros ws j Hj Hlen; [destruct Hj|].
  unfold store_all in *. simpl.
  destruct (in_dec Nat.eq_dec j t) as [Hin|Hnin].
  - apply IH; [assumption|]. rewrite store_length. assumption.
  - destruct Hj as [->|Hj]; [|contradiction].
    fold (store_all g t (store ws j (g j))).
    rewrite nth_store_all_notin by assumption.
    apply nth_store_eq. assumption.
Qed.

(** The loop of the provisional weights is such a loop, and its flag is
    raised exactly when some active index has a negative weight. *)
Lemma provisional_fold alpha lambda r l : forall ws b,
  fold_left
    (fun (st : list Q * bool) i =>
       let w_i := w_of alpha lambda r i in
       (store (fst st) i w_i, if Qltb w_i 0 then true else snd st))
    l (ws, b)
  = (store_all (w_of alpha lambda r) l ws,
     b || existsb (fun i => Qltb (w_of alpha lambda r i) 0) l).
Proof.
  induction l as [|i t IH]; intros ws b; simpl.
  - rewrite orb_false_r. reflexivity.
  - rewrite IH. unfold store_all. simpl. f_equal.
    destruct (Qltb (w_of alpha lambda r i) 0), b; reflexivity.
Qed.

Lemma provisional_spec alpha lambda r ws active :
  provisional alpha lambda r ws active
  = (store_all (w_of alpha lambda r) active ws,
     existsb (fun i => Qltb (w_of alpha lambda r i) 0) active).
Proof. unfold provisional. rewrite provisional_fold. reflexivity. Qed.

(** [weights[i] /= sumW] reads the slot it writes: each active index is
    divided once because [active] has no duplicates. *)
Lemma normalize_length s l : forall ws,
  length (normalize s ws l) = length ws.
Proof.
  induction l as [|i t IH]; intros ws; simpl; auto.
  unfold normalize in *. simpl. rewrite IH. apply store_length.
Qed.

Lemma nth_normalize_notin s l : forall ws j,
  ~ In j l -> nth j (normalize s ws l) 0 = nth j ws 0.
Proof.
  induction l as [|i t IH]; intros ws j Hj; simpl; auto.
  unfold normalize in *. simpl. rewrite IH.
  - apply nth_store_neq. intros ->. apply Hj. left; reflexivity.
  - intros H. apply Hj. right; assumption.
Qed.

Lemma nth_normalize_in s l : forall ws j,
  NoDup l -> In j l -> (j < length ws)%nat ->
  nth j (normalize s ws l) 0 = nth j ws 0 / s.
Proof.
  induction l as [|i t IH]; intros ws j Hnd Hj Hlen; [destruct Hj|].
  inversion Hnd as [|? ? Hnin Hnd']; subst.
  unfold normalize in *. simpl.
  destruct Hj as [->|Hj].
  - fold (normalize s (store ws j (nth j ws 0 / s)) t).
    rewrite nth_normalize_notin by assumption.
    apply nth_store_eq. assumption.
  - rewrite IH; try assumption.
    + rewrite nth_store_neq; [reflexivity|].
      intros ->. contradiction.
    + rewrite store_length. assumption.
Qed.

(** The removal loop zeroes the dropped indices and nothing else. *)
Lemma nth_store_zero ws i j :
  nth j (store ws i 0) 0 = if Nat.eqb i j then 0 else nth j ws 0.
Proof.
  destruct (Nat.eqb_spec i j) as [->|Hne].
  - destruct (Nat.lt_ge_cases j (length ws)).
    + apply nth_store_eq; assumption.
    + apply nth_overflow. rewrite store_length. assumption.
  - apply nth_store_neq; assumption.
Qed.

Lemma shrink_fold_snd l : forall na ws j,
  nth j (snd (fold_left
       (fun (st : list nat * list Q) i =>
          if Qltb 0 (nth i (snd st) 0)
          then (fst st ++ [i], snd st)
          else (fst st, store (snd st) i 0))
       l (na, ws))) 0
  = if existsb (Nat.eqb j) l && negb (positive_at ws j)
    then 0 else nth j ws 0.
Proof.
  induction l as [|i t IH]; intros na ws j; simpl; [reflexivity|].
  fold (positive_at ws i).
  destruct (positive_at ws i) eqn:E; simpl; rewrite IH.
  - destruct (Nat.eqb_spec j i) as [->|Hne]; simpl; [|reflexivity].
    rewrite E. simpl. rewrite andb_false_r. reflexivity.
  - rewrite positive_at_store_zero by assumption.
    rewrite nth_store_zero. rewrite (Nat.eqb_sym i j).
    destruct (Nat.eqb_spec j i) as [->|Hne]; simpl.
    + rewrite E. simpl.
      destruct (existsb (Nat.eqb i) t); reflexivity.
    + reflexivity.
Qed.

Lemma shrink_snd ws active j :
  nth j (snd (shrink ws active)) 0
  = if existsb (Nat.eqb j) active && negb (positive_at ws j)
    then 0 else nth j ws 0.
Proof. unfold shrink. apply shrink_fold_snd. Qed.

Lemma shrink_fold_length l : forall na ws,
  length (snd (fold_left
       (fun (st : list nat * list Q) i =>
          if Qltb 0 (nth i (snd st) 0)
          then (fst st ++ [i], snd st)
          else (fst st, store (snd st) i 0))
       l (na, ws))) = length ws.
Proof.
  induction l as [|i t IH]; intros na ws; simpl; [reflexivity|].
  destruct (Qltb 0 (nth i ws 0)); simpl; rewrite IH; auto.
  apply store_length.
Qed.

Lemma shrink_length ws active :
  length (snd (shrink ws active)) = length ws.
Proof. unfold shrink. apply shrink_fold_length. Qed.

Lemma existsb_eqb_In j l : existsb (Nat.eqb j) l = true <-> In j l.
Proof.
  rewrite existsb_exists. split.
  - intros [x [Hx He]]. apply Nat.eqb_eq in He. subst. assumption.
  - intros H. exists j. split; [assumption|apply Nat.eqb_refl].
Qed.
End InnerLoops.

(** ** One pass of the loop *)

(** The provisional weights of an active set always sum to 1: this is how
    [lambda] is chosen. *)
Lemma Qsum_w_of alpha lambda r l :
  Qsum (map (w_of alpha lambda r) l)
  == (alpha * Qsum (map (fun i => nth i r 0) l) - Qnat (length l) * lambda)
     / (2 * (1 - alpha)).
Proof.
  unfold w_of, Qdiv. induction l as [|i t IH].
  - simpl. unfold Qnat. simpl. ring.
  - change (length (i :: t)) with (S (length t)).
    unfold Qnat in *. rewrite Nat2Z.inj_succ, <- Z.add_1_r, inject_Z_plus.
    simpl. rewrite IH. ring.
Qed.

Lemma sumR_Qsum r l : sumR r l == Qsum (map (fun i => nth i r 0) l).
Proof. unfold sumR. rewrite fold_left_Qsum. ring. Qed.

Lemma sumW_Qsum ws l : sumW ws l == Qsum (map (fun i => nth i ws 0) l).
Proof. unfold sumW. rewrite fold_left_Qsum. ring. Qed.

Lemma Qsum_provisional alpha r l :
  ~ alpha == 1 -> l <> [] ->
  Qsum (map (w_of alpha (lambda_of alpha r l) r) l) == 1.
Proof.
  intros Ha Hl. rewrite Qsum_w_of. unfold lambda_of.
  rewrite sumR_Qsum.
  assert (Hm : 0 < Qnat (length l)).
  { apply Qnat_pos. destruct l; [congruence|simpl; lia]. }
  field. split; lra.
Qed.

Lemma filter_length_lt {A} (p : A -> bool) l x :
  In x l -> p x = false -> (length (filter p l) < length l)%nat.
Proof.
  induction l as [|y t IH]; intros Hin Hp; [destruct Hin|].
  simpl. destruct Hin as [->|Hin].
  - rewrite Hp. pose proof (filter_length_le p t). simpl. lia.
  - specialize (IH Hin Hp). destruct (p y); simpl; lia.
Qed.

Lemma filter_true {A} (l : list A) : filter (fun _ => true) l = l.
Proof. induction l; simpl; congruence. Qed.

Lemma loop_inv_init n :
  (1 <= n)%nat -> loop_inv n (repeat 0 n) (seq 0 n).
Proof.
  intros Hn. split.
  - apply repeat_length.
  - exists (fun _ => true). symmetry. apply filter_true.
  - intros j _. apply nth_repeat.
  - destruct n; [lia|]. simpl. discriminate.
Qed.

Lemma loop_inv_range n ws active j :
  loop_inv n ws active -> In j active -> (j < n)%nat.
Proof.
  intros [_ [p ->] _ _] Hj. apply filter_In in Hj. destruct Hj as [Hj _].
  apply in_seq in Hj. lia.
Qed.

Lemma loop_inv_NoDup n ws active : loop_inv n ws active -> NoDup active.
Proof.
  intros [_ [p ->] _ _]. apply NoDup_filter. apply seq_NoDup.
Qed.

Section OnePass.
Variables (alpha : Q) (r : list Q) (n : nat).
Variables (ws : list Q) (active : list nat).
Hypothesis Halpha : ~ alpha == 1.
Hypothesis Hinv : loop_inv n ws active.

Let lambda := lambda_of alpha r active.
Let ws1 := store_all (w_of alpha lambda r) active ws.

Lemma provisional_nth j :
  In j active -> nth j ws1 0 = w_of alpha lambda r j.
Proof.
  intros Hj. apply nth_store_all_in; [assumption|].
  rewrite (inv_length _ _ _ Hinv). eapply loop_inv_range; eassumption.
Qed.

Lemma provisional_sumW : sumW ws1 active == 1.
Proof.
  rewrite sumW_Qsum.
  rewrite (Qsum_map_ext _ (w_of alpha lambda r)).
  - apply Qsum_provisional; [assumption|apply (inv_nonempty _ _ _ Hinv)].
  - intros j Hj. rewrite provisional_nth by assumption. reflexivity.
Qed.

(** Some provisional weight is positive, since they sum to 1. *)
Lemma provisional_some_positive :
  exists i, In i active /\ positive_at ws1 i = true.
Proof.
  destruct (existsb (positive_at ws1) active) eqn:E.
  - apply existsb_exists in E. exact E.
  - exfalso. pose proof provisional_sumW as Hs. rewrite sumW_Qsum in Hs.
    assert (Hle : Qsum (map (fun i => nth i ws1 0) active)
                  <= Qsum (map (fun _ => 0) active)).
    { apply Qsum_map_le. intros i Hi.
      assert (Hp : positive_at ws1 i = false).
      { destruct (positive_at ws1 i) eqn:Ep; auto.
        assert (existsb (positive_at ws1) active = true)
          by (apply existsb_exists; exists i; auto).
        congruence. }
      apply Qltb_false in Hp. exact Hp. }
    rewrite Qsum_map_const in Hle. lra.
Qed.

(** The two ways a pass can end from a state of the invariant. *)
Lemma loop_iter_cases :
  (existsb (fun i => Qltb (w_of alpha lambda r i) 0) active = false /\
   loop_iter alpha r ws active
   = Break ExitNormalized (normalize (sumW ws1 active) ws1 active))
  \/
  (existsb (fun i => Qltb (w_of alpha lambda r i) 0) active = true /\
   loop_iter alpha r ws active
   = Continue (snd (shrink ws1 active)) (filter (positive_at ws1) active)).
Proof.
  unfold loop_iter.
  pose proof (inv_nonempty _ _ _ Hinv) as Hne.
  destruct (Nat.eqb_spec (length active) 0) as [H0|H0].
  { destruct active; [congruence|discriminate]. }
  rewrite provisional_spec. fold lambda. fold ws1.
  destruct (existsb _ active) eqn:E; simpl.
  - right. split; [reflexivity|].
    destruct (shrink ws1 active) as [newActive weights2] eqn:Hs.
    assert (Hna : newActive = filter (positive_at ws1) active).
    { rewrite <- shrink_fst, Hs. reflexivity. }
    apply existsb_exists in E. destruct E as [i [Hi Hneg]].
    assert (Hlt : (length newActive < length active)%nat).
    { rewrite Hna. apply filter_length_lt with (x := i); [assumption|].
      unfold positive_at. rewrite provisional_nth by assumption.
      apply Qltb_false. apply Qltb_true in Hneg. lra. }
    destruct (Nat.eqb_spec (length newActive) (length active)); [lia|].
    simpl. rewrite Hna. reflexivity.
  - left. split; [reflexivity|].
    destruct (Qle_bool (sumW ws1 active) 0) eqn:Es; [|reflexivity].
    apply Qle_bool_iff in Es. pose proof provisional_sumW. lra.
Qed.

(** The invariant survives a pass that does not [break]. *)
Lemma loop_inv_step ws' active' :
  loop_iter alpha r ws active = Continue ws' active' ->
  loop_inv n ws' active'.
Proof.
  intros Hstep.
  destruct loop_iter_cases as [[_ H]|[_ H]]; rewrite H in Hstep;
    [discriminate|].
  inversion Hstep; subst; clear Hstep H.
  pose proof (inv_length _ _ _ Hinv) as Hlen.
  split.
  - rewrite shrink_length. unfold ws1. rewrite store_all_length.
    assumption.
  - destruct (inv_active _ _ _ Hinv) as [p Hp].
    exists (fun i => p i && positive_at ws1 i).
    rewrite <- filter_filter_andb. rewrite <- Hp. reflexivity.
  - intros j Hj. rewrite shrink_snd.
    destruct (existsb (Nat.eqb j) active) eqn:Ej; simpl.
    + apply existsb_eqb_In in Ej.
      destruct (positive_at ws1 j) eqn:Ep; simpl; [|reflexivity].
      exfalso. apply Hj. apply filter_In. split; assumption.
    + assert (Hnin : ~ In j active).
      { intros Hin. apply existsb_eqb_In in Hin. congruence. }
      unfold ws1. rewrite nth_store_all_notin by assumption.
      apply (inv_zero _ _ _ Hinv). assumption.
  - destruct provisional_some_positive as [i [Hi Hp]].
    intros Hnil.
    assert (Hin : In i (filter (positive_at ws1) active))
      by (apply filter_In; split; assumption).
    rewrite Hnil in Hin. destruct Hin.
Qed.
(** The weights left by the normalizing [break]. *)
Lemma exit_length :
  length (normalize (sumW ws1 active) ws1 active) = n.
Proof.
  rewrite normalize_length. unfold ws1. rewrite store_all_length.
  apply (inv_length _ _ _ Hinv).
Qed.

Lemma exit_nth_in j :
  In j active ->
  nth j (normalize (sumW ws1 active) ws1 active) 0
  == w_of alpha lambda r j.
Proof.
  intros Hj. rewrite nth_normalize_in.
  - rewrite provisional_nth by assumption.
    rewrite provisional_sumW. field.
  - eapply loop_inv_NoDup; eassumption.
  - assumption.
  - unfold ws1. rewrite store_all_length.
    rewrite (inv_length _ _ _ Hinv). eapply loop_inv_range; eassumption.
Qed.

Lemma exit_nth_out j :
  ~ In j active ->
  nth j (normalize (sumW ws1 active) ws1 active) 0 = 0.
Proof.
  intros Hj. rewrite nth_normalize_notin by assumption.
  unfold ws1. rewrite nth_store_all_notin by assumption.
  apply (inv_zero _ _ _ Hinv). assumption.
Qed.

Lemma exit_sum :
  Qsum (normalize (sumW ws1 active) ws1 active) == 1.
Proof.
  rewrite Qsum_nth. rewrite exit_length.
  destruct (inv_active _ _ _ Hinv) as [p Hp].
  rewrite (Qsum_filter_split _ p). rewrite <- Hp.
  rewrite (Qsum_map_zero _ (filter _ _)).
  - rewrite (Qsum_map_ext _ (w_of alpha lambda r)) by exact exit_nth_in.
    unfold lambda.
    rewrite Qsum_provisional;
      [ring|assumption|apply (inv_nonempty _ _ _ Hinv)].
  - intros j Hj. apply filter_In in Hj. destruct Hj as [_ Hj].
    apply negb_true_iff in Hj. rewrite exit_nth_out; [reflexivity|].
    rewrite Hp. intros Hc. apply filter_In in Hc.
    destruct Hc as [_ Hc]. congruence.
Qed.

Lemma exit_nonneg j :
  existsb (fun i => Qltb (w_of alpha lambda r i) 0) active = false ->
  0 <= nth j (normalize (sumW ws1 active) ws1 active) 0.
Proof.
  intros Hneg.
  destruct (in_dec Nat.eq_dec j active) as [Hact|Hinact].
  - rewrite (exit_nth_in j Hact). apply Qltb_false.
    destruct (Qltb (w_of alpha lambda r j) 0) eqn:E; [|reflexivity].
    assert (existsb (fun i => Qltb (w_of alpha lambda r i) 0) active
            = true)
      by (apply existsb_exists; exists j; auto).
    congruence.
  - rewrite (exit_nth_out j Hinact). lra.
Qed.
End OnePass.

(** ** Runs of the loop *)

Lemma while_loop_run alpha r ws a :
  exists ws' a' e,
    reaches alpha r ws a ws' a' /\
    loop_iter alpha r ws' a' = Break e (fst (while_loop alpha r ws a)) /\
    (snd (while_loop alpha r ws a) + length a' <= S (length a))%nat.
Proof.
  funelim (while_loop alpha r ws a).
  - exists weights, active, e0. simpl. repeat split.
    + apply reaches_here.
    + assumption.
    + lia.
  - match goal with
    | IH : exists _ _ _, _ /\ _ /\ _ |- _ =>
        destruct IH as (ws' & a' & e' & Hreach & Hbreak & Hpasses)
    end.
    exists ws', a', e'. simpl. repeat split.
    + eapply reaches_next; eassumption.
    + assumption.
    + match goal with
      | Hs : loop_iter _ _ _ _ = Continue _ _ |- _ =>
          pose proof (loop_iter_shrinks _ _ _ _ _ _ Hs)
      end.
      lia.
Qed.

Lemma reaches_inv alpha r n ws a ws' a' :
  ~ alpha == 1 ->
  reaches alpha r ws a ws' a' ->
  loop_inv n ws a -> loop_inv n ws' a'.
Proof.
  intros Ha Hreach. induction Hreach as [|ws a ws1 a1 ws2 a2 Hstep _ IH];
    intros Hinv; [assumption|].
  apply IH. eapply loop_inv_step; eassumption.
Qed.

(** Every index of the active set is a valid index of [weights] and [r]:
    no pass reads or writes outside the arrays. *)
Lemma reachable_inv alpha r ws a :
  ~ alpha == 1 -> (1 <= length r)%nat ->
  reachable alpha r ws a ->
  loop_inv (length r) ws a.
Proof.
  intros Ha Hn Hreach.
  eapply reaches_inv; [eassumption|exact Hreach|].
  apply loop_inv_init; assumption.
Qed.

(** ** Optimality conditions *)

Lemma Qsquare_nonneg z : 0 <= z * z.
Proof. nra. Qed.

Lemma div_ge_1 x c : 0 < c -> 1 <= x / c -> c <= x.
Proof.
  intros Hc H. assert (E : x == x / c * c) by (field; lra).
  rewrite E. nra.
Qed.

Lemma w_of_nonpos alpha lambda r i :
  alpha < 1 -> w_of alpha lambda r i <= 0 ->
  alpha * nth i r 0 <= lambda.
Proof.
  intros Ha H. unfold w_of in H.
  set (x := alpha * nth i r 0 - lambda) in *.
  set (c := 2 * (1 - alpha)) in *.
  assert (Hc : 0 < c) by (unfold c; lra).
  assert (E : x == x / c * c) by (field; lra).
  assert (x <= 0) by (rewrite E; nra).
  unfold x in *. lra.
Qed.

Section Multiplier.
Variables (alpha : Q) (r : list Q).
Variables (ws : list Q) (active : list nat).
Hypothesis Halpha0 : 0 <= alpha.
Hypothesis Halpha1 : alpha < 1.
Hypothesis Hinv : loop_inv (length r) ws active.

Let lambda := lambda_of alpha r active.
Let ws1 := store_all (w_of alpha lambda r) active ws.
Let newActive := filter (positive_at ws1) active.

Lemma alpha_not_1 : ~ alpha == 1.
Proof. lra. Qed.

(** The multiplier does not decrease when the non-positive weights are
    dropped. *)
Lemma lambda_mono :
  newActive <> [] -> lambda <= lambda_of alpha r newActive.
Proof.
  intros Hne.
  pose proof (Qsum_provisional alpha r active alpha_not_1
                (inv_nonempty _ _ _ Hinv)) as H1.
  fold lambda in H1.
  rewrite (Qsum_filter_split _ (positive_at ws1)) in H1.
  fold newActive in H1.
  assert (H3 : Qsum (map (w_of alpha lambda r)
                 (filter (fun x => negb (positive_at ws1 x)) active)) <= 0).
  { rewrite <- (Qsum_map_zero (fun _ : nat => 0)
                 (filter (fun x => negb (positive_at ws1 x)) active))
      by reflexivity.
    apply Qsum_map_le. intros i Hi. apply filter_In in Hi.
    destruct Hi as [Hi Hp]. apply negb_true_iff in Hp.
    unfold positive_at in Hp. apply Qltb_false in Hp.
    unfold ws1 in Hp.
    rewrite (provisional_nth alpha r (length r) ws active Hinv) in Hp
      by assumption.
    exact Hp. }
  rewrite Qsum_w_of in H1.
  unfold lambda_of. rewrite sumR_Qsum.
  set (X := alpha * Qsum (map (fun i => nth i r 0) newActive)) in *.
  set (M := Qnat (length newActive)) in *.
  set (c := 2 * (1 - alpha)) in *.
  assert (Hc : 0 < c) by (unfold c; lra).
  assert (HM : 0 < M).
  { apply Qnat_pos. destruct newActive; [congruence|simpl; lia]. }
  assert (H4 : c <= X - M * lambda).
  { apply div_ge_1; [assumption|]. lra. }
  apply Qle_shift_div_l; [assumption|]. lra.
Qed.

Lemma dual_inv_step ws' active' :
  dual_inv alpha r active ->
  loop_iter alpha r ws active = Continue ws' active' ->
  dual_inv alpha r active'.
Proof.
  intros Hdual Hstep.
  pose proof (loop_inv_step alpha r _ ws active alpha_not_1 Hinv
                ws' active' Hstep) as Hinv'.
  destruct (loop_iter_cases alpha r _ ws active alpha_not_1 Hinv)
    as [[_ H]|[_ H]]; rewrite H in Hstep; [discriminate|].
  inversion Hstep; subst; clear Hstep H.
  fold lambda ws1 newActive in Hinv' |- *.
  pose proof (lambda_mono (inv_nonempty _ _ _ Hinv')) as Hmono.
  intros j Hj Hnin.
  apply Qle_trans with (y := lambda); [|exact Hmono].
  destruct (in_dec Nat.eq_dec j active) as [Hin|Hout].
  - apply w_of_nonpos; [assumption|].
    rewrite <- (provisional_nth alpha r (length r) ws active Hinv)
      by assumption.
    fold lambda ws1. apply Qltb_false.
    destruct (Qltb 0 (nth j ws1 0)) eqn:Ep; [|reflexivity].
    exfalso. apply Hnin. apply filter_In. split; assumption.
  - apply Hdual; assumption.
Qed.

(** When no provisional weight is negative the normalized weights
    satisfy the optimality conditions. *)
Lemma exit_kkt :
  dual_inv alpha r active ->
  existsb (fun i => Qltb (w_of alpha lambda r i) 0) active = false ->
  kkt alpha lambda r (normalize (sumW ws1 active) ws1 active).
Proof.
  intros Hdual Hneg.
  split; [|split].
  - apply (exit_length alpha r _ ws active Hinv).
  - apply (exit_sum alpha r _ ws active alpha_not_1 Hinv).
  - intros j Hj.
    pose proof (exit_nonneg alpha r _ ws active alpha_not_1 Hinv j Hneg)
      as Hw.
    split; [exact Hw|].
    destruct (in_dec Nat.eq_dec j active) as [Hact|Hinact].
    + pose proof (exit_nth_in alpha r _ ws active alpha_not_1 Hinv j Hact)
        as Hin.
      fold lambda ws1 in Hin, Hw |- *.
      assert (Hg : alpha * nth j r 0
                   - 2 * (1 - alpha) * w_of alpha lambda r j == lambda)
        by (unfold w_of; field; lra).
      rewrite Hin. split; [lra|]. intros _. exact Hg.
    + pose proof (exit_nth_out alpha r _ ws active Hinv j Hinact)
        as Hout.
      fold lambda ws1 in Hout |- *. rewrite Hout.
      pose proof (Hdual j Hj Hinact) as Hd. fold lambda in Hd.
      split; [lra|]. intros Hc. lra.
Qed.
End Multiplier.

Lemma dual_inv_init alpha r : dual_inv alpha r (seq 0 (length r)).
Proof.
  intros j Hj Hnin. exfalso. apply Hnin. apply in_seq. lia.
Qed.

Lemma reaches_dual alpha r ws a ws' a' :
  0 <= alpha -> alpha < 1 ->
  reaches alpha r ws a ws' a' ->
  loop_inv (length r) ws a -> dual_inv alpha r a ->
  dual_inv alpha r a'.
Proof.
  intros Ha0 Ha1 Hreach.
  induction Hreach as [|ws a ws1 a1 ws2 a2 Hstep _ IH];
    intros Hinv Hdual; [assumption|].
  apply IH.
  - eapply loop_inv_step; try eassumption. lra.
  - eapply dual_inv_step; eassumption.
Qed.

(** The loop ends through the normalizing [break], in a state of the
    invariant, whatever [alpha] other than 1. *)
Lemma while_loop_exit alpha r :
  ~ alpha == 1 -> (1 <= length r)%nat ->
  exists ws a,
    reachable alpha r ws a /\
    loop_inv (length r) ws a /\
    existsb (fun i => Qltb (w_of alpha (lambda_of alpha r a) r i) 0) a
      = false /\
    fst (while_loop alpha r (repeat 0 (length r)) (seq 0 (length r)))
    = normalize
        (sumW (store_all (w_of alpha (lambda_of alpha r a) r) a ws) a)
        (store_all (w_of alpha (lambda_of alpha r a) r) a ws) a /\
    (snd (while_loop alpha r (repeat 0%Q (length r)) (seq 0 (length r)))
     + length a <= S (length r))%nat.
Proof.
  intros Ha Hn.
  destruct (while_loop_run alpha r (repeat 0 (length r)) (seq 0 (length r)))
    as (ws & a & e & Hreach & Hbreak & Hpasses).
  pose proof (reachable_inv alpha r ws a Ha Hn Hreach) as Hinv.
  exists ws, a. split; [exact Hreach|]. split; [exact Hinv|].
  destruct (loop_iter_cases alpha r _ ws a Ha Hinv) as [[Hneg H]|[_ H]];
    rewrite H in Hbreak; [|discriminate].
  inversion Hbreak; subst. split; [exact Hneg|].
  split; [congruence|].
  rewrite length_seq in Hpasses. exact Hpasses.
Qed.

(** The weights the loop leaves satisfy the optimality conditions. *)
Lemma while_loop_kkt alpha r :
  0 <= alpha -> alpha < 1 -> (1 <= length r)%nat ->
  exists lambda,
    kkt alpha lambda r
      (fst (while_loop alpha r (repeat 0 (length r)) (seq 0 (length r)))).
Proof.
  intros Ha0 Ha1 Hn.
  assert (Ha : ~ alpha == 1) by lra.
  destruct (while_loop_exit alpha r Ha Hn)
    as (ws & a & Hreach & Hinv & Hneg & Hfst & _).
  exists (lambda_of alpha r a). rewrite Hfst.
  apply exit_kkt; try assumption.
  eapply reaches_dual; try eassumption.
  - apply loop_inv_init; assumption.
  - apply dual_inv_init.
Qed.

(** ** Consequences of the optimality conditions *)

Lemma kkt_feasible alpha lambda r w :
  kkt alpha lambda r w -> feasible (length r) w.
Proof.
  intros (Hlen & Hsum & Hj). split; [assumption|]. split; [|assumption].
  apply Forall_forall. intros x Hx.
  destruct (In_nth w x 0 Hx) as (j & Hjlt & <-).
  apply Hj. lia.
Qed.

Lemma Qsum_combine_nth (h : Q -> Q -> Q) r w :
  length w = length r ->
  Qsum (map (fun rw => h (fst rw) (snd rw)) (combine r w))
  == Qsum (map (fun j => h (nth j r 0) (nth j w 0)) (seq 0 (length r))).
Proof.
  intros Hlen. rewrite Qsum_nth. rewrite length_map, length_combine.
  rewrite Hlen, Nat.min_id.
  apply Qsum_map_ext. intros j Hj. apply in_seq in Hj.
  rewrite (nth_indep _ 0 (h (fst (0, 0)) (snd (0, 0))))
    by (rewrite length_map, length_combine; lia).
  rewrite (map_nth (fun rw => h (fst rw) (snd rw))).
  rewrite combine_nth by (symmetry; assumption).
  reflexivity.
Qed.

Lemma Qsum_map_nth (f : Q -> Q) w :
  Qsum (map f w)
  == Qsum (map (fun j => f (nth j w 0)) (seq 0 (length w))).
Proof.
  rewrite Qsum_nth. rewrite length_map.
  apply Qsum_map_ext. intros j Hj. apply in_seq in Hj.
  rewrite (nth_indep _ 0 (f 0)) by (rewrite length_map; lia).
  rewrite map_nth. reflexivity.
Qed.

Lemma Qsum_map_lin {A} a b (f g : A -> Q) l :
  Qsum (map (fun x => a * f x - b * g x) l)
  == a * Qsum (map f l) - b * Qsum (map g l).
Proof.
  induction l as [|x t IH]; simpl.
  - ring.
  - rewrite IH. ring.
Qed.

Lemma objective_nth alpha r w :
  length w = length r ->
  objective alpha r w
  == Qsum (map (fun j => alpha * (nth j r 0 * nth j w 0)
                         - (1 - alpha) * (nth j w 0 * nth j w 0))
               (seq 0 (length r))).
Proof.
  intros Hlen. unfold objective.
  rewrite (Qsum_combine_nth Qmult) by assumption.
  rewrite (Qsum_map_nth (fun x => x * x)). rewrite Hlen.
  rewrite <- Qsum_map_lin. reflexivity.
Qed.

(** A point of the optimality conditions maximizes the objective over the
    feasible set. *)
Lemma kkt_optimal alpha lambda r w v :
  alpha <= 1 ->
  kkt alpha lambda r w -> feasible (length r) v ->
  objective alpha r v <= objective alpha r w.
Proof.
  intros Ha (Hlen & Hsum & Hk) (Hlenv & Hposv & Hsumv).
  rewrite !objective_nth by assumption.
  set (g := fun (u : list Q) (j : nat) =>
              alpha * (nth j r 0 * nth j u 0)
              - (1 - alpha) * (nth j u 0 * nth j u 0)).
  assert (Hpoint : forall j, In j (seq 0 (length r)) ->
            g v j + lambda * nth j w 0 <= g w j + lambda * nth j v 0).
  { intros j Hj. apply in_seq in Hj.
    destruct (Hk j ltac:(lia)) as (Hw0 & Hle & Heq).
    assert (Hv0 : 0 <= nth j v 0).
    { rewrite Forall_forall in Hposv. apply Hposv. apply nth_In. lia. }
    unfold g.
    set (x := nth j w 0) in *. set (y := nth j v 0) in *.
    set (rj := nth j r 0) in *.
    assert (Hsq : 0 <= (1 - alpha) * ((x - y) * (x - y))).
    { apply Qmult_le_0_compat; [lra|]. apply Qsquare_nonneg. }
    destruct (Qlt_le_dec 0 x) as [Hpos|Hzero].
    - specialize (Heq Hpos).
      assert (E : alpha * rj == lambda + 2 * (1 - alpha) * x) by lra.
      assert (E1 : alpha * (rj * x) == (lambda + 2 * (1 - alpha) * x) * x)
        by (rewrite <- E; ring).
      assert (E2 : alpha * (rj * y) == (lambda + 2 * (1 - alpha) * x) * y)
        by (rewrite <- E; ring).
      rewrite E1, E2. nra.
    - assert (Ex : x == 0) by lra.
      assert (Hy : 0 <= (lambda - alpha * rj) * y).
      { apply Qmult_le_0_compat; [|assumption]. rewrite Ex in Hle. lra. }
      assert (Hy2 : 0 <= (1 - alpha) * (y * y)).
      { apply Qmult_le_0_compat; [lra|]. apply Qsquare_nonneg. }
      rewrite Ex. nra. }
  pose proof (Qsum_map_le _ _ _ Hpoint) as Hs.
  rewrite !Qsum_map_plus, !Qsum_map_scale in Hs.
  assert (Ew : Qsum (map (fun j => nth j w 0) (seq 0 (length r))) == 1).
  { rewrite <- Hlen, <- Qsum_nth. assumption. }
  assert (Ev : Qsum (map (fun j => nth j v 0) (seq 0 (length r))) == 1).
  { rewrite <- Hlenv, <- Qsum_nth. assumption. }
  rewrite Ew, Ev in Hs. unfold g in Hs. lra.
Qed.

(** ** More weight on the best item as [alpha] grows *)

Lemma tilt_mono a1 a2 :
  0 <= a1 -> a1 <= a2 -> a2 < 1 ->
  0 <= a1 / (2 * (1 - a1)) /\
  a1 / (2 * (1 - a1)) <= a2 / (2 * (1 - a2)).
Proof.
  intros H0 H12 H1. split.
  - apply Qle_shift_div_l; lra.
  - apply Qle_shift_div_r; [lra|].
    setoid_replace (a2 / (2 * (1 - a2)) * (2 * (1 - a1)))
      with (a2 * (2 * (1 - a1)) / (2 * (1 - a2))) by (field; lra).
    apply Qle_shift_div_l; [lra|]. nra.
Qed.

(** The optimality conditions, divided by [2 * (1 - alpha)]. *)
Lemma kkt_normal alpha lambda r w j :
  alpha < 1 -> kkt alpha lambda r w -> (j < length r)%nat ->
  let t := alpha / (2 * (1 - alpha)) in
  let tau := lambda / (2 * (1 - alpha)) in
  0 <= nth j w 0 /\
  t * nth j r 0 - tau <= nth j w 0 /\
  (0 < nth j w 0 -> nth j w 0 == t * nth j r 0 - tau).
Proof.
  intros Ha (_ & _ & Hk) Hj t tau.
  destruct (Hk j Hj) as (H0 & Hle & Heq).
  set (c := 2 * (1 - alpha)) in *.
  assert (Hc : 0 < c) by (unfold c; lra).
  assert (E : t * nth j r 0 - tau - nth j w 0
              == (alpha * nth j r 0 - c * nth j w 0 - lambda) / c)
    by (unfold t, tau; fold c; field; lra).
  split; [assumption|]. split.
  - assert (Hq : (alpha * nth j r 0 - c * nth j w 0 - lambda) / c <= 0)
      by (apply Qle_shift_div_r; lra).
    lra.
  - intros Hpos. specialize (Heq Hpos).
    assert (Hq : (alpha * nth j r 0 - c * nth j w 0 - lambda) / c == 0).
    { setoid_replace (alpha * nth j r 0 - c * nth j w 0 - lambda)
        with 0 by lra.
      field. lra. }
    lra.
Qed.

Lemma kkt_monotone a1 a2 l1 l2 r w1 w2 m :
  0 <= a1 -> a1 <= a2 -> a2 < 1 ->
  kkt a1 l1 r w1 -> kkt a2 l2 r w2 ->
  (m < length r)%nat ->
  (forall j, (j < length r)%nat -> nth j r 0 <= nth m r 0) ->
  nth m w1 0 <= nth m w2 0.
Proof.
  intros H0 H12 H1 K1 K2 Hm Hmax.
  destruct (Qlt_le_dec (nth m w2 0) (nth m w1 0)) as [Hlt|]; [|assumption].
  exfalso.
  destruct (tilt_mono a1 a2 H0 H12 H1) as [Ht0 Ht].
  set (t1 := a1 / (2 * (1 - a1))) in *.
  set (t2 := a2 / (2 * (1 - a2))) in *.
  assert (Ha1 : a1 < 1) by lra.
  pose proof (kkt_normal a1 l1 r w1 m Ha1 K1 Hm) as (Hm10 & Hm1le & Hm1eq).
  pose proof (kkt_normal a2 l2 r w2 m H1 K2 Hm) as (Hm20 & Hm2le & _).
  cbv zeta in *. fold t1 in Hm1le, Hm1eq. fold t2 in Hm2le.
  assert (Hm1pos : 0 < nth m w1 0) by lra.
  specialize (Hm1eq Hm1pos).
  assert (Hpoint : forall j, In j (seq 0 (length r)) ->
            nth j w2 0 <= nth j w1 0).
  { intros j Hj. apply in_seq in Hj. assert (Hjn : (j < length r)%nat) by lia.
    pose proof (kkt_normal a1 l1 r w1 j Ha1 K1 Hjn) as (Hj10 & Hj1le & _).
    pose proof (kkt_normal a2 l2 r w2 j H1 K2 Hjn) as (Hj20 & _ & Hj2eq).
    cbv zeta in *. fold t1 in Hj1le. fold t2 in Hj2eq.
    destruct (Qlt_le_dec 0 (nth j w2 0)) as [Hpos|Hz]; [|lra].
    specialize (Hj2eq Hpos).
    assert (Hd : 0 <= (t2 - t1) * (nth m r 0 - nth j r 0)).
    { apply Qmult_le_0_compat; [lra|]. specialize (Hmax j Hjn). lra. }
    nra. }
  assert (Hsum : Qsum (map (fun j => nth j w2 0) (seq 0 (length r)))
                 < Qsum (map (fun j => nth j w1 0) (seq 0 (length r)))).
  { apply Qsum_map_lt with (x0 := m); [exact Hpoint| |exact Hlt].
    apply in_seq. lia. }
  destruct K1 as (Hl1 & Hs1 & _). destruct K2 as (Hl2 & Hs2 & _).
  rewrite <- Hl1 in Hsum at 2. rewrite <- Hl2 in Hsum at 1.
  rewrite <- !Qsum_nth in Hsum. lra.
Qed.

Lemma Qsum_ge_nth w j :
  Forall (fun x => 0 <= x) w -> nth j w 0 <= Qsum w.
Proof.
  intros H. revert j. induction H as [|x t Hx Ht IH]; intros [|j]; simpl.
  - lra.
  - lra.
  - assert (0 <= Qsum t) by (specialize (IH (length t));
      rewrite nth_overflow in IH by lia; exact IH).
    lra.
  - specialize (IH j). lra.
Qed.

(** ** The [alpha === 1] branch *)

Lemma performance_at_ok items i :
  (i < length items)%nat ->
  performance_at items i = Ok (nth i (map performance items) 0).
Proof.
  intros Hi. unfold performance_at.
  rewrite (nth_error_nth' items (mkItem EmptyString 0) Hi).
  f_equal. symmetry.
  exact (map_nth performance items (mkItem EmptyString 0) i).
Qed.

(** The invariant of the search loop: [maxIdx] is the first index of
    greatest performance among the indices below [i]. *)
Lemma find_max_loop items count : forall i maxIdx,
  (i + count = length items)%nat ->
  (maxIdx < i)%nat ->
  (forall j, (j < i)%nat ->
     nth j (map performance items) 0
     <= nth maxIdx (map performance items) 0) ->
  (forall j, (j < maxIdx)%nat ->
     nth j (map performance items) 0
     < nth maxIdx (map performance items) 0) ->
  exists m,
    for_loop
      (fun i (st : nat * Q) =>
         p <- performance_at items i ;;
         if Qltb (snd st) p then Ok (i, p) else Ok st)
      i count (maxIdx, nth maxIdx (map performance items) 0)
    = Ok (m, nth m (map performance items) 0) /\
    is_first_max (map performance items) m.
Proof.
  induction count as [|c IH]; intros i maxIdx Hn Hlt Hle Hfirst.
  - exists maxIdx. simpl. split; [reflexivity|].
    rewrite Nat.add_0_r in Hn. subst i.
    split; [rewrite length_map; assumption|].
    split; [|assumption].
    intros j Hj. rewrite length_map in Hj. apply Hle. assumption.
  - simpl. rewrite performance_at_ok by lia. simpl.
    destruct (Qltb (nth maxIdx (map performance items) 0)
                   (nth i (map performance items) 0)) eqn:E.
    + apply Qltb_true in E. apply IH; try lia.
      * intros j Hj. destruct (Nat.eq_dec j i) as [->|Hne]; [lra|].
        specialize (Hle j ltac:(lia)). lra.
      * intros j Hj. specialize (Hle j Hj). lra.
    + apply Qltb_false in E. apply IH; try lia; [|assumption].
      intros j Hj. destruct (Nat.eq_dec j i) as [->|Hne]; [assumption|].
      apply Hle. lia.
Qed.

Lemma find_max_spec items :
  items <> [] ->
  exists m,
    find_max items = Ok (m, nth m (map performance items) 0) /\
    is_first_max (map performance items) m.
Proof.
  intros Hne. unfold find_max.
  assert (Hlen : (0 < length items)%nat)
    by (destruct items; [congruence|simpl; lia]).
  rewrite performance_at_ok by assumption. simpl.
  apply find_max_loop; try lia.
  - intros j Hj. assert (j = 0%nat) by lia. subst. lra.
Qed.

(** ** The result list *)

Lemma mapi_from_length {A B} (f : A -> nat -> B) l : forall i,
  length (mapi_from f i l) = length l.
Proof. induction l as [|x t IH]; intros i; simpl; auto. Qed.

Lemma map_mapi_from {A B C} (h : B -> C) (f : A -> nat -> B) l : forall i,
  map h (mapi_from f i l) = mapi_from (fun x k => h (f x k)) i l.
Proof.
  induction l as [|x t IH]; intros i; simpl; [reflexivity|].
  rewrite IH. reflexivity.
Qed.

Lemma mapi_from_index {A B} (g : nat -> B) (l : list A) : forall i,
  mapi_from (fun _ k => g k) i l = map g (seq i (length l)).
Proof.
  induction l as [|x t IH]; intros i; simpl; [reflexivity|].
  rewrite IH. reflexivity.
Qed.

Lemma map_nth_seq (l : list Q) :
  map (fun i => nth i l 0) (seq 0 (length l)) = l.
Proof.
  apply nth_ext with (d := 0) (d' := 0).
  - rewrite length_map, length_seq. reflexivity.
  - intros j Hj. rewrite length_map, length_seq in Hj.
    rewrite (nth_indep _ 0 (nth 0 l 0))
      by (rewrite length_map, length_seq; assumption).
    rewrite (map_nth (fun i => nth i l 0) (seq 0 (length l)) 0%nat j).
    rewrite seq_nth by assumption. reflexivity.
Qed.

Lemma weighted_weights g items :
  weights_of (weighted g items) = map g (seq 0 (length items)).
Proof.
  unfold weights_of, weighted, mapi. rewrite map_mapi_from. simpl.
  apply mapi_from_index.
Qed.

Lemma weighted_length g items : length (weighted g items) = length items.
Proof. apply mapi_from_length. Qed.

(** The two branches of [optimizePortfolio] on a non-empty list. *)
Lemma optimizePortfolio_one items alpha :
  items <> [] -> alpha == 1 ->
  exists m,
    is_first_max (map performance items) m /\
    optimizePortfolio items alpha
    = Ok (weighted (fun i => if Nat.eqb i m then 1 else 0) items).
Proof.
  intros Hne Ha. unfold optimizePortfolio.
  destruct (Nat.eqb_spec (length items) 0) as [H0|H0].
  { destruct items; [congruence|discriminate]. }
  apply Qeq_bool_iff in Ha. rewrite Ha.
  destruct (find_max_spec items Hne) as (m & Hfind & Hmax).
  exists m. split; [assumption|]. rewrite Hfind. reflexivity.
Qed.

Lemma optimizePortfolio_general items alpha :
  items <> [] -> ~ alpha == 1 ->
  optimizePortfolio items alpha
  = Ok (weighted
          (fun i => nth i (fst (while_loop alpha (map performance items)
                                  (repeat 0 (length items))
                                  (seq 0 (length items)))) 0)
          items).
Proof.
  intros Hne Ha. unfold optimizePortfolio.
  destruct (Nat.eqb_spec (length items) 0) as [H0|H0].
  { destruct items; [congruence|discriminate]. }
  destruct (Qeq_bool alpha 1) eqn:E.
  { apply Qeq_bool_iff in E. contradiction. }
  reflexivity.
Qed.

(** The weights the loop leaves, for any [alpha] other than 1: one per
    item, none negative, of sum 1. *)
Lemma while_loop_feasible alpha r :
  ~ alpha == 1 -> (1 <= length r)%nat ->
  feasible (length r)
    (fst (while_loop alpha r (repeat 0 (length r)) (seq 0 (length r)))).
Proof.
  intros Ha Hn.
  destruct (while_loop_exit alpha r Ha Hn)
    as (ws & a & _ & Hinv & Hneg & Hfst & _).
  rewrite Hfst. split; [|split].
  - apply (exit_length alpha r _ ws a Hinv).
  - apply Forall_forall. intros x Hx.
    destruct (In_nth _ x 0 Hx) as (j & _ & <-).
    apply (exit_nonneg alpha r _ ws a Ha Hinv j Hneg).
  - apply (exit_sum alpha r _ ws a Ha Hinv).
Qed.

Lemma nonempty_length {A} (l : list A) : l <> [] -> (1 <= length l)%nat.
Proof. destruct l; [congruence|simpl; lia]. Qed.

(** In the general branch the result carries exactly the weights the loop
    leaves. *)
Lemma optimizePortfolio_loop_weights items alpha :
  items <> [] -> ~ alpha == 1 ->
  exists out,
    optimizePortfolio items alpha = Ok out /\
    weights_of out
    = fst (while_loop alpha (map performance items)
             (repeat 0 (length items)) (seq 0 (length items))).
Proof.
  intros Hne Ha. eexists. split.
  - apply optimizePortfolio_general; assumption.
  - rewrite weighted_weights.
    pose proof (while_loop_feasible alpha (map performance items) Ha)
      as (Hlen & _).
    { rewrite length_map. apply nonempty_length. assumption. }
    rewrite length_map in Hlen. rewrite <- Hlen at 1.
    apply map_nth_seq.
Qed.

Lemma Qsum_indicator m l :
  NoDup l -> In m l ->
  Qsum (map (fun i => if Nat.eqb i m then 1 else 0) l) == 1.
Proof.
  induction l as [|x t IH]; intros Hnd Hin; [destruct Hin|].
  inversion Hnd as [|? ? Hx Hnd']; subst. simpl.
  destruct (Nat.eqb_spec x m) as [->|Hne].
  - rewrite Qsum_map_zero; [ring|].
    intros y Hy. destruct (Nat.eqb_spec y m) as [->|]; [contradiction|].
    reflexivity.
  - destruct Hin as [?|Hin]; [contradiction|].
    rewrite IH by assumption. ring.
Qed.

(** Every call returns, with the sectors and performances of the input in
    the input's order. *)
Lemma optimizePortfolio_shape items alpha :
  exists g, optimizePortfolio items alpha = Ok (weighted g items).
Proof.
  destruct items as [|x t].
  - exists (fun _ => 0). reflexivity.
  - assert (Hne : x :: t <> []) by discriminate.
    destruct (Qeq_dec alpha 1) as [Hone|Hnot].
    + destruct (optimizePortfolio_one _ alpha Hne Hone) as (m & _ & Hout).
      eexists. exact Hout.
    + eexists. apply optimizePortfolio_general; assumption.
Qed.

Lemma nth_error_mapi_from {A B} (f : A -> nat -> B) l : forall s i x,
  nth_error l i = Some x ->
  nth_error (mapi_from f s l) i = Some (f x (s + i)%nat).
Proof.
  induction l as [|y t IH]; intros s [|i] x H; simpl in *;
    try discriminate.
  - inversion H; subst. rewrite Nat.add_0_r. reflexivity.
  - rewrite (IH (S s) i x H).
    replace (S s + i)%nat with (s + S i)%nat by lia. reflexivity.
Qed.

Lemma weighted_nth_error g items i x :
  nth_error items i = Some x ->
  nth_error (weighted g items) i
  = Some {| w_sector := sector x;
            w_performance := performance x;
            weight := g i |}.
Proof.
  intros H. unfold weighted, mapi.
  rewrite (nth_error_mapi_from _ items 0 i x H). reflexivity.
Qed.

Lemma is_first_max_unique r m m' :
  is_first_max r m -> is_first_max r m' -> m = m'.
Proof.
  intros (Hm & Hle & Hlt) (Hm' & Hle' & Hlt').
  destruct (Nat.lt_trichotomy m m') as [H|[H|H]]; [|assumption|].
  - specialize (Hlt' m H). specialize (Hle m' Hm'). lra.
  - specialize (Hlt m' H). specialize (Hle' m Hm). lra.
Qed.

Lemma nth_map_seq (g : nat -> Q) n i :
  (i < n)%nat -> nth i (map g (seq 0 n)) 0 = g i.
Proof.
  intros Hi.
  rewrite (nth_indep _ 0 (g 0%nat)) by (rewrite length_map, length_seq; lia).
  rewrite map_nth. rewrite seq_nth by assumption. reflexivity.
Qed.

(** ** The examples, computed *)

Example alpha_one_ABC :
  reduced_weights (optimizePortfolio items_ABC 1) = [0; 1; 0].
Proof. vm_compute. reflexivity. Qed.

Example alpha_zero_equal :
  reduced_weights (optimizePortfolio items_equal 0)
  = [1 # 3; 1 # 3; 1 # 3].
Proof. vm_compute. reflexivity. Qed.

Example negative_item_dropped :
  reduced_weights (optimizePortfolio items_negative (1 # 2))
  = [23 # 60; 0; 17 # 60; 1 # 3] /\
  loop_passes items_negative (1 # 2) = 2%nat.
Proof. split; vm_compute; reflexivity. Qed.

(** * The claims *)

(** C1, amended.  In exact rational arithmetic, for a non-empty list of
    items and [0 <= alpha < 1], the weights returned by
    [optimizePortfolio] are an optimal solution of the
    quadratic program: they are feasible (one weight per item, none
    negative, of sum 1) and no feasible vector has a greater value of
    [alpha * sum_i (r_i * w_i) - (1 - alpha) * sum_i (w_i ^ 2)], where
    [r_i] is the performance of the i-th item. *)
Theorem optimizePortfolio_optimal items alpha :
  items <> [] -> 0 <= alpha -> alpha < 1 ->
  exists out,
    optimizePortfolio items alpha = Ok out /\
    feasible (length items) (weights_of out) /\
    forall v, feasible (length items) v ->
      objective alpha (map performance items) v
      <= objective alpha (map performance items) (weights_of out).
Proof.
  intros Hne Ha0 Ha1.
  assert (Ha : ~ alpha == 1) by lra.
  destruct (optimizePortfolio_loop_weights items alpha Hne Ha)
    as (out & Hout & Hw).
  exists out. split; [assumption|].
  assert (Hn : (1 <= length (map performance items))%nat)
    by (rewrite length_map; apply nonempty_length; assumption).
  destruct (while_loop_kkt alpha (map performance items) Ha0 Ha1 Hn)
    as (lambda & Hk).
  rewrite length_map in Hk. rewrite <- Hw in Hk.
  split.
  - rewrite <- (length_map performance items).
    eapply kkt_feasible; eassumption.
  - intros v Hv. apply kkt_optimal with (lambda := lambda);
      [lra|assumption|].
    rewrite length_map. assumption.
Qed.

Lemma optimizePortfolio_optimal_witness :
  exists out,
    optimizePortfolio items_ABC (1 # 2) = Ok out /\
    feasible 3 (weights_of out) /\
    forall v, feasible 3 v ->
      objective (1 # 2) (map performance items_ABC) v
      <= objective (1 # 2) (map performance items_ABC) (weights_of out).
Proof.
  apply (optimizePortfolio_optimal items_ABC (1 # 2));
    [discriminate|lra|lra].
Defined.

(** C2, amended.  In exact rational arithmetic, for [n >= 1] items and
    [alpha] in [[0, 1]], every weight of the result is non-negative and
    the weights sum to exactly 1. *)
Theorem optimizePortfolio_weights_sum_to_one items alpha :
  (1 <= length items)%nat -> 0 <= alpha -> alpha <= 1 ->
  exists out,
    optimizePortfolio items alpha = Ok out /\
    Forall (fun x => 0 <= x) (weights_of out) /\
    Qsum (weights_of out) == 1.
Proof.
  intros Hn Ha0 Ha1.
  assert (Hne : items <> []) by (destruct items; [simpl in Hn; lia|congruence]).
  destruct (Qeq_dec alpha 1) as [Hone|Hnot].
  - destruct (optimizePortfolio_one items alpha Hne Hone)
      as (m & (Hm & _) & Hout).
    eexists. split; [exact Hout|]. rewrite weighted_weights. split.
    + apply Forall_forall. intros x Hx. apply in_map_iff in Hx.
      destruct Hx as (i & <- & _). destruct (Nat.eqb i m); lra.
    + apply Qsum_indicator; [apply seq_NoDup|].
      apply in_seq. rewrite length_map in Hm. lia.
  - destruct (optimizePortfolio_loop_weights items alpha Hne Hnot)
      as (out & Hout & Hw).
    exists out. split; [assumption|]. rewrite Hw.
    pose proof (while_loop_feasible alpha (map performance items) Hnot)
      as (_ & Hpos & Hsum).
    { rewrite length_map. assumption. }
    rewrite length_map in Hpos, Hsum. split; assumption.
Qed.

Lemma optimizePortfolio_weights_sum_to_one_witness :
  exists out,
    optimizePortfolio items_ABC (1 # 2) = Ok out /\
    Forall (fun x => 0 <= x) (weights_of out) /\
    Qsum (weights_of out) == 1.
Proof.
  apply (optimizePortfolio_weights_sum_to_one items_ABC (1 # 2));
    [simpl; lia|lra|lra].
Defined.

(** C3.  For every input list and every [alpha], the result has the length
    of the input, and its i-th element carries the sector and the
    performance of the i-th input element.  (The input is a value of the
    embedding: the function only reads it, as the source only reads
    [items].) *)
Theorem optimizePortfolio_preserves_items items alpha :
  exists out,
    optimizePortfolio items alpha = Ok out /\
    length out = length items /\
    forall i x, nth_error items i = Some x ->
      exists y, nth_error out i = Some y /\
                w_sector y = sector x /\
                w_performance y = performance x.
Proof.
  destruct (optimizePortfolio_shape items alpha) as (g & Hout).
  eexists. split; [exact Hout|]. split.
  - apply weighted_length.
  - intros i x Hx. eexists. split.
    + apply weighted_nth_error. exact Hx.
    + split; reflexivity.
Qed.

(** C4.  For a non-empty input list and [alpha = 1], the result gives
    weight 1 to the first item of greatest performance and weight 0 to
    every other item. *)
Theorem optimizePortfolio_alpha_one items alpha :
  items <> [] -> alpha == 1 ->
  exists out m,
    optimizePortfolio items alpha = Ok out /\
    is_first_max (map performance items) m /\
    length out = length items /\
    forall i y, nth_error out i = Some y ->
      weight y = if Nat.eqb i m then 1 else 0.
Proof.
  intros Hne Ha.
  destruct (optimizePortfolio_one items alpha Hne Ha) as (m & Hm & Hout).
  eexists. exists m. split; [exact Hout|]. split; [exact Hm|].
  split; [apply weighted_length|].
  intros i y Hy.
  destruct (nth_error items i) as [x|] eqn:Hx.
  - rewrite (weighted_nth_error _ items i x Hx) in Hy.
    inversion Hy; subst. reflexivity.
  - apply nth_error_None in Hx.
    assert (Hsome : nth_error (weighted
              (fun i => if Nat.eqb i m then 1 else 0) items) i <> None)
      by congruence.
    apply nth_error_Some in Hsome. rewrite weighted_length in Hsome. lia.
Qed.

Lemma optimizePortfolio_alpha_one_witness :
  exists out m,
    optimizePortfolio items_ABC 1 = Ok out /\
    is_first_max (map performance items_ABC) m /\
    length out = 3%nat /\
    forall i y, nth_error out i = Some y ->
      weight y = if Nat.eqb i m then 1 else 0.
Proof.
  apply (optimizePortfolio_alpha_one items_ABC 1);
    [discriminate|reflexivity].
Defined.


(** C6.  The empty list gives the empty list, and no call raises: every
    list of items and every [alpha] give a result. *)
Theorem optimizePortfolio_never_throws :
  (forall alpha, optimizePortfolio [] alpha = Ok []) /\
  (forall items alpha, exists out, optimizePortfolio items alpha = Ok out).
Proof.
  split.
  - intros alpha. reflexivity.
  - intros items alpha.
    destruct (optimizePortfolio_shape items alpha) as (g & Hout).
    eexists. exact Hout.
Qed.

(** C7.  For every list of [n] items and every [alpha], the active-set
    loop ends after at most [n] passes through its body, and a pass that
    does not leave the loop hands over a strictly shorter active set. *)
Theorem active_set_loop_at_most_n_passes items alpha :
  (loop_passes items alpha <= length items)%nat /\
  (forall ws a ws' a',
     loop_iter alpha (map performance items) ws a = Continue ws' a' ->
     (length a' < length a)%nat).
Proof.
  split.
  - unfold loop_passes.
    destruct (Nat.eqb_spec (length items) 0) as [H0|H0]; [lia|].
    destruct (Qeq_bool alpha 1) eqn:E; [lia|].
    assert (Ha : ~ alpha == 1).
    { intros H. apply Qeq_bool_iff in H. congruence. }
    pose proof (while_loop_exit alpha (map performance items) Ha)
      as (ws & a & _ & Hinv & _ & _ & Hpasses).
    { rewrite length_map. lia. }
    rewrite length_map in Hpasses.
    pose proof (inv_nonempty _ _ _ Hinv) as Hne.
    destruct a; [congruence|]. simpl in Hpasses. lia.
  - intros ws a ws' a'. apply loop_iter_shrinks.
Qed.

(** C8, amended.  In exact rational arithmetic, with the item list fixed
    and [0 <= a1 <= a2 <= 1], the weight of the first item of greatest
    performance (the item the [alpha = 1] branch selects) at [a2] is at
    least its weight at [a1]. *)
Theorem optimizePortfolio_monotone_in_alpha items a1 a2 m :
  0 <= a1 -> a1 <= a2 -> a2 <= 1 ->
  is_first_max (map performance items) m ->
  exists out1 out2,
    optimizePortfolio items a1 = Ok out1 /\
    optimizePortfolio items a2 = Ok out2 /\
    nth m (weights_of out1) 0 <= nth m (weights_of out2) 0.
Proof.
  intros H0 H12 H1 Hmax.
  pose proof Hmax as (Hm & Hle & _).
  assert (Hn : (1 <= length (map performance items))%nat) by lia.
  assert (Hne : items <> []) by (intros ->; simpl in Hm; lia).
  assert (Hbound : forall a out,
            ~ a == 1 ->
            weights_of out
            = fst (while_loop a (map performance items)
                     (repeat 0 (length items)) (seq 0 (length items))) ->
            nth m (weights_of out) 0 <= 1).
  { intros a out Ha Hw. rewrite Hw.
    pose proof (while_loop_feasible a (map performance items) Ha Hn)
      as (_ & Hpos & Hsum).
    rewrite length_map in Hpos, Hsum. rewrite <- Hsum.
    apply Qsum_ge_nth. assumption. }
  destruct (Qeq_dec a2 1) as [Hone2|Hnot2].
  - destruct (optimizePortfolio_one items a2 Hne Hone2)
      as (m2 & Hm2 & Hout2).
    assert (m2 = m) by (eapply is_first_max_unique; eassumption). subst m2.
    assert (Hw2 : nth m (weights_of (weighted
                    (fun i => if Nat.eqb i m then 1 else 0) items)) 0 = 1).
    { rewrite weighted_weights. rewrite nth_map_seq.
      - rewrite Nat.eqb_refl. reflexivity.
      - rewrite length_map in Hm. assumption. }
    destruct (Qeq_dec a1 1) as [Hone1|Hnot1].
    + destruct (optimizePortfolio_one items a1 Hne Hone1)
        as (m1 & Hm1 & Hout1).
      assert (m1 = m) by (eapply is_first_max_unique; eassumption).
      subst m1.
      eexists. eexists. split; [exact Hout1|]. split; [exact Hout2|].
      apply Qle_refl.
    + destruct (optimizePortfolio_loop_weights items a1 Hne Hnot1)
        as (out1 & Hout1 & Hw1).
      exists out1. eexists. split; [exact Hout1|]. split; [exact Hout2|].
      rewrite Hw2. eapply Hbound; eassumption.
  - assert (Ha2 : a2 < 1) by lra.
    assert (Hnot1 : ~ a1 == 1) by lra.
    destruct (optimizePortfolio_loop_weights items a1 Hne Hnot1)
      as (out1 & Hout1 & Hw1).
    destruct (optimizePortfolio_loop_weights items a2 Hne Hnot2)
      as (out2 & Hout2 & Hw2).
    exists out1, out2. split; [exact Hout1|]. split; [exact Hout2|].
    destruct (while_loop_kkt a1 (map performance items)) as (l1 & K1);
      [assumption|lra|assumption|].
    destruct (while_loop_kkt a2 (map performance items)) as (l2 & K2);
      [lra|assumption|assumption|].
    rewrite length_map in K1, K2. rewrite <- Hw1 in K1. rewrite <- Hw2 in K2.
    eapply kkt_monotone with (a1 := a1) (a2 := a2); eassumption.
Qed.

Lemma items_ABC_first_max : is_first_max (map performance items_ABC) 1.
Proof.
  split; [simpl; lia|]. split.
  - intros [|[|[|j]]] Hj; simpl in *; try lia;
      unfold Qle; simpl; lia.
  - intros [|j] Hj; [|lia]. unfold Qlt; simpl; lia.
Defined.

Lemma optimizePortfolio_monotone_in_alpha_witness :
  exists out1 out2,
    optimizePortfolio items_ABC (1 # 2) = Ok out1 /\
    optimizePortfolio items_ABC (3 # 4) = Ok out2 /\
    nth 1 (weights_of out1) 0 <= nth 1 (weights_of out2) 0.
Proof.
  apply (optimizePortfolio_monotone_in_alpha items_ABC (1 # 2) (3 # 4) 1);
    [lra|lra|lra|exact items_ABC_first_max].
Defined.

(** With a tie for the greatest performance the selection of the
    [alpha = 1] branch matters: the second of two equal items holds half
    of the weight at [alpha = 1/2] and nothing at [alpha = 1]. *)
Example tie_second_item :
  exists out1 out2,
    optimizePortfolio items_tie (1 # 2) = Ok out1 /\
    optimizePortfolio items_tie 1 = Ok out2 /\
    nth 1 (weights_of out1) 0 == 1 # 2 /\
    nth 1 (weights_of out2) 0 == 0.
Proof.
  eexists. eexists. split; [vm_compute; reflexivity|].
  split; [vm_compute; reflexivity|]. split; reflexivity.
Qed.

(** C9, as stated: in a pass where some provisional weight is negative,
    an active index whose provisional weight is exactly 0 stays in the
    active set.  It does not: the removal loop keeps the indices with
    [weights[i] > 0] only.  For the performances 4, 1, 0 and
    [alpha = 1/2] the provisional weights of the first pass are
    3/2, 0, -1/2, and the next active set is [[0]]. *)
Lemma zero_weight_index_is_dropped :
  ~ (forall alpha r ws a ws' a' i,
       reachable alpha r ws a ->
       loop_iter alpha r ws a = Continue ws' a' ->
       In i a ->
       w_of alpha (lambda_of alpha r a) r i == 0 ->
       In i a').
Proof.
  intros H.
  assert (Hstep : exists ws',
            loop_iter (1 # 2) [4; 1; 0] [0; 0; 0] [0; 1; 2]%nat
            = Continue ws' [0%nat])
    by (eexists; vm_compute; reflexivity).
  destruct Hstep as [ws' Hstep].
  assert (Hin : In 1%nat [0%nat]).
  { apply (H (1 # 2) [4; 1; 0] [0; 0; 0] [0; 1; 2]%nat ws' [0%nat] 1%nat).
    - apply reaches_here.
    - exact Hstep.
    - simpl. auto.
    - vm_compute. reflexivity. }
  simpl in Hin. destruct Hin as [Hin|[]]. discriminate.
Qed.

(** C9, amended.  In a pass of the loop where some provisional weight is
    negative, exactly the active indices whose provisional weight is not
    positive (negative or 0) leave the active set, and their slot is set
    to 0; the indices of positive provisional weight stay, in order, with
    that weight. *)
Theorem shrink_drops_nonpositive alpha r ws a :
  ~ alpha == 1 -> (1 <= length r)%nat ->
  reachable alpha r ws a ->
  (exists i, In i a /\ w_of alpha (lambda_of alpha r a) r i < 0) ->
  exists ws',
    loop_iter alpha r ws a
    = Continue ws'
        (filter (fun i => Qltb 0 (w_of alpha (lambda_of alpha r a) r i)) a)
    /\
    (forall i, In i a ->
       w_of alpha (lambda_of alpha r a) r i <= 0 -> nth i ws' 0 = 0) /\
    (forall i, In i a ->
       0 < w_of alpha (lambda_of alpha r a) r i ->
       nth i ws' 0 = w_of alpha (lambda_of alpha r a) r i).
Proof.
  intros Ha Hn Hreach (i0 & Hi0 & Hneg0).
  pose proof (reachable_inv alpha r ws a Ha Hn Hreach) as Hinv.
  set (lambda := lambda_of alpha r a) in *.
  set (ws1 := store_all (w_of alpha lambda r) a ws).
  assert (Hnth : forall i, In i a -> nth i ws1 0 = w_of alpha lambda r i)
    by (intros i Hi; apply (provisional_nth alpha r _ ws a Hinv i Hi)).
  destruct (loop_iter_cases alpha r _ ws a Ha Hinv) as [[E _]|[_ H]].
  { exfalso. fold lambda in E.
    assert (existsb (fun i => Qltb (w_of alpha lambda r i) 0) a = true).
    { apply existsb_exists. exists i0. split; [assumption|].
      apply Qltb_true. assumption. }
    congruence. }
  fold lambda ws1 in H.
  exists (snd (shrink ws1 a)). split; [|split].
  - rewrite H. f_equal. apply filter_ext_in. intros i Hi.
    unfold positive_at. rewrite Hnth by assumption. reflexivity.
  - intros i Hi Hle. rewrite shrink_snd.
    assert (E1 : existsb (Nat.eqb i) a = true)
      by (apply existsb_eqb_In; assumption).
    assert (E2 : positive_at ws1 i = false).
    { unfold positive_at. rewrite Hnth by assumption.
      apply Qltb_false. assumption. }
    rewrite E1, E2. reflexivity.
  - intros i Hi Hpos. rewrite shrink_snd.
    assert (E2 : positive_at ws1 i = true).
    { unfold positive_at. rewrite Hnth by assumption.
      apply Qltb_true. assumption. }
    rewrite E2, andb_false_r. apply Hnth. assumption.
Qed.

Lemma shrink_drops_nonpositive_witness :
  exists ws',
    loop_iter (1 # 2) [4; 1; 0] [0; 0; 0] [0; 1; 2]%nat
    = Continue ws'
        (filter (fun i => Qltb 0 (w_of (1 # 2)
                   (lambda_of (1 # 2) [4; 1; 0] [0; 1; 2]%nat) [4; 1; 0] i))
           [0; 1; 2]%nat)
    /\
    (forall i, In i [0; 1; 2]%nat ->
       w_of (1 # 2) (lambda_of (1 # 2) [4; 1; 0] [0; 1; 2]%nat) [4; 1; 0] i
       <= 0 -> nth i ws' 0 = 0) /\
    (forall i, In i [0; 1; 2]%nat ->
       0 < w_of (1 # 2) (lambda_of (1 # 2) [4; 1; 0] [0; 1; 2]%nat)
             [4; 1; 0] i ->
       nth i ws' 0
       = w_of (1 # 2) (lambda_of (1 # 2) [4; 1; 0] [0; 1; 2]%nat)
           [4; 1; 0] i).
Proof.
  apply (shrink_drops_nonpositive (1 # 2) [4; 1; 0] [0; 0; 0]
           [0; 1; 2]%nat).
  - vm_compute. discriminate.
  - simpl. lia.
  - apply reaches_here.
  - exists 2%nat. split; [simpl; auto|]. vm_compute. reflexivity.
Defined.

(** C10.  For [n >= 1] items and [0 <= alpha < 1], at every pass of the
    loop the active set is not empty and the provisional weights over it
    sum to exactly 1; hence the pass never leaves through the uniform
    fallback ([sumW <= 0]) nor through the empty-active-set [break]. *)
Theorem provisional_weights_sum_to_one items alpha ws a :
  items <> [] -> 0 <= alpha -> alpha < 1 ->
  reachable alpha (map performance items) ws a ->
  a <> [] /\
  sumW (fst (provisional alpha
               (lambda_of alpha (map performance items) a)
               (map performance items) ws a)) a == 1 /\
  (forall w, loop_iter alpha (map performance items) ws a
             <> Break ExitUniform w) /\
  (forall w, loop_iter alpha (map performance items) ws a
             <> Break ExitEmpty w).
Proof.
  intros Hne Ha0 Ha1 Hreach.
  assert (Ha : ~ alpha == 1) by lra.
  assert (Hn : (1 <= length (map performance items))%nat)
    by (rewrite length_map; apply nonempty_length; assumption).
  pose proof (reachable_inv alpha _ ws a Ha Hn Hreach) as Hinv.
  split; [apply (inv_nonempty _ _ _ Hinv)|]. split.
  - rewrite provisional_spec. simpl.
    apply (provisional_sumW alpha (map performance items) _ ws a Ha Hinv).
  - destruct (loop_iter_cases alpha (map performance items) _ ws a Ha Hinv)
      as [[_ H]|[_ H]];
      rewrite H; split; intros w; discriminate.
Qed.

Lemma provisional_weights_sum_to_one_witness :
  [0; 1; 2]%nat <> [] /\
  sumW (fst (provisional (1 # 2)
               (lambda_of (1 # 2) (map performance items_ABC) [0; 1; 2]%nat)
               (map performance items_ABC) [0; 0; 0] [0; 1; 2]%nat))
       [0; 1; 2]%nat == 1 /\
  (forall w, loop_iter (1 # 2) (map performance items_ABC)
               [0; 0; 0] [0; 1; 2]%nat <> Break ExitUniform w) /\
  (forall w, loop_iter (1 # 2) (map performance items_ABC)
               [0; 0; 0] [0; 1; 2]%nat <> Break ExitEmpty w).
Proof.
  apply (provisional_weights_sum_to_one items_ABC (1 # 2)
           [0; 0; 0] [0; 1; 2]%nat);
    [discriminate|lra|lra|apply reaches_here].
Defined.

(** * Further properties of [optimizePortfolio] *)

(** ** The loop, pass by pass *)

Lemma while_loop_break alpha r ws a e w :
  loop_iter alpha r ws a = Break e w ->
  while_loop alpha r ws a = (w, 1%nat).
Proof.
  intros Hb. funelim (while_loop alpha r ws a).
  - match goal with
    | H : loop_iter _ _ _ _ = Break _ _ |- _ =>
        rewrite H in Hb; inversion Hb; subst; reflexivity
    end.
  - match goal with
    | H : loop_iter _ _ _ _ = Continue _ _ |- _ =>
        rewrite H in Hb; discriminate
    end.
Qed.

(** The provisional weight, written around the mean performance. *)
Lemma w_of_mean alpha r l i :
  ~ alpha == 1 -> l <> [] ->
  w_of alpha (lambda_of alpha r l) r i
  == 1 / Qnat (length l)
     + alpha * (nth i r 0 - sumR r l / Qnat (length l))
       / (2 * (1 - alpha)).
Proof.
  intros Ha Hl. unfold w_of, lambda_of.
  assert (Hm : 0 < Qnat (length l)).
  { apply Qnat_pos. destruct l; [congruence|simpl; lia]. }
  field. split; lra.
Qed.

(** When no provisional weight of the first pass is negative, the loop
    makes that single pass and leaves the provisional weights. *)
Lemma first_pass_exit alpha r :
  ~ alpha == 1 -> (1 <= length r)%nat ->
  (forall i, (i < length r)%nat ->
     0 <= w_of alpha (lambda_of alpha r (seq 0 (length r))) r i) ->
  snd (while_loop alpha r (repeat 0 (length r)) (seq 0 (length r)))
  = 1%nat /\
  forall i, (i < length r)%nat ->
    nth i (fst (while_loop alpha r (repeat 0 (length r))
                  (seq 0 (length r)))) 0
    == w_of alpha (lambda_of alpha r (seq 0 (length r))) r i.
Proof.
  intros Ha Hn Hpos.
  pose proof (loop_inv_init (length r) Hn) as Hinv.
  destruct (loop_iter_cases alpha r _ _ _ Ha Hinv) as [[_ H]|[E _]].
  - rewrite (while_loop_break _ _ _ _ _ _ H). simpl. split; [reflexivity|].
    intros i Hi.
    apply (exit_nth_in alpha r _ _ _ Ha Hinv). apply in_seq. lia.
  - exfalso. apply existsb_exists in E. destruct E as (i & Hi & Hneg).
    apply in_seq in Hi. apply Qltb_true in Hneg.
    specialize (Hpos i ltac:(lia)). lra.
Qed.

Lemma optimizePortfolio_kkt items alpha :
  items <> [] -> 0 <= alpha -> alpha < 1 ->
  exists out lambda,
    optimizePortfolio items alpha = Ok out /\
    kkt alpha lambda (map performance items) (weights_of out).
Proof.
  intros Hne Ha0 Ha1.
  assert (Ha : ~ alpha == 1) by lra.
  destruct (optimizePortfolio_loop_weights items alpha Hne Ha)
    as (out & Hout & Hw).
  assert (Hn : (1 <= length (map performance items))%nat)
    by (rewrite length_map; apply nonempty_length; assumption).
  destruct (while_loop_kkt alpha (map performance items) Ha0 Ha1 Hn)
    as (lambda & Hk).
  rewrite length_map in Hk. rewrite <- Hw in Hk.
  exists out, lambda. split; assumption.
Qed.

Lemma sumR_all r : sumR r (seq 0 (length r)) == Qsum r.
Proof. rewrite sumR_Qsum. symmetry. apply Qsum_nth. Qed.

(** ** The interior case and [alpha = 0] *)

(** When the stationary point of the whole set,
    [1 / n + alpha * (r_i - mean) / (2 * (1 - alpha))], has no negative
    coordinate, the loop makes a single pass and the result carries
    exactly these weights. *)
Theorem optimizePortfolio_interior items alpha :
  items <> [] -> ~ alpha == 1 ->
  (forall i, (i < length items)%nat ->
     0 <= 1 / Qnat (length items)
          + alpha * (nth i (map performance items) 0
                     - Qsum (map performance items) / Qnat (length items))
            / (2 * (1 - alpha))) ->
  exists out,
    optimizePortfolio items alpha = Ok out /\
    loop_passes items alpha = 1%nat /\
    forall i, (i < length items)%nat ->
      nth i (weights_of out) 0
      == 1 / Qnat (length items)
         + alpha * (nth i (map performance items) 0
                    - Qsum (map performance items) / Qnat (length items))
           / (2 * (1 - alpha)).
Proof.
  intros Hne Ha Hpos.
  assert (Hn : (1 <= length items)%nat) by (apply nonempty_length; assumption).
  assert (Hseq : seq 0 (length items) <> [])
    by (destruct (length items); [lia|discriminate]).
  pose proof (sumR_all (map performance items)) as Hsum.
  rewrite length_map in Hsum.
  assert (Hw : forall i,
            w_of alpha (lambda_of alpha (map performance items)
                          (seq 0 (length items)))
              (map performance items) i
            == 1 / Qnat (length items)
               + alpha * (nth i (map performance items) 0
                          - Qsum (map performance items)
                            / Qnat (length items))
                 / (2 * (1 - alpha))).
  { intros i. rewrite (w_of_mean alpha _ _ i Ha Hseq).
    rewrite length_seq, Hsum. reflexivity. }
  pose proof (first_pass_exit alpha (map performance items) Ha) as Hfp.
  rewrite !length_map in Hfp.
  destruct (Hfp Hn) as (Hpasses & Hfst).
  { intros i Hi. rewrite Hw. apply Hpos. assumption. }
  destruct (optimizePortfolio_loop_weights items alpha Hne Ha)
    as (out & Hout & Hws).
  exists out. split; [assumption|]. split.
  - unfold loop_passes.
    destruct (Nat.eqb_spec (length items) 0) as [H0|H0]; [lia|].
    destruct (Qeq_bool alpha 1) eqn:E.
    { apply Qeq_bool_iff in E. contradiction. }
    exact Hpasses.
  - intros i Hi. rewrite Hws.
    apply Qeq_trans with (y := w_of alpha
        (lambda_of alpha (map performance items) (seq 0 (length items)))
        (map performance items) i).
    + apply Hfst. assumption.
    + apply Hw.
Qed.

Lemma optimizePortfolio_interior_witness :
  exists out,
    optimizePortfolio items_ABC (1 # 2) = Ok out /\
    loop_passes items_ABC (1 # 2) = 1%nat /\
    forall i, (i < 3)%nat ->
      nth i (weights_of out) 0
      == 1 / Qnat 3
         + (1 # 2) * (nth i (map performance items_ABC) 0
                      - Qsum (map performance items_ABC) / Qnat 3)
           / (2 * (1 - (1 # 2))).
Proof.
  apply (optimizePortfolio_interior items_ABC (1 # 2)).
  - discriminate.
  - vm_compute. discriminate.
  - intros [|[|[|i]]] Hi; simpl in Hi; try lia; vm_compute; discriminate.
Defined.

(** In exact rational arithmetic, with [alpha = 0] every item gets the
    weight [1 / n], in one pass, whatever the performances. *)
Theorem optimizePortfolio_alpha_zero items alpha :
  items <> [] -> alpha == 0 ->
  exists out,
    optimizePortfolio items alpha = Ok out /\
    loop_passes items alpha = 1%nat /\
    forall i, (i < length items)%nat ->
      nth i (weights_of out) 0 == 1 / Qnat (length items).
Proof.
  intros Hne Ha0.
  assert (Ha : ~ alpha == 1) by lra.
  assert (Hm : 0 < Qnat (length items))
    by (apply Qnat_pos; apply nonempty_length; assumption).
  assert (Hform : forall i,
            1 / Qnat (length items)
            + alpha * (nth i (map performance items) 0
                       - Qsum (map performance items)
                         / Qnat (length items))
              / (2 * (1 - alpha))
            == 1 / Qnat (length items)).
  { intros i. rewrite Ha0. field. lra. }
  destruct (optimizePortfolio_interior items alpha Hne Ha)
    as (out & Hout & Hpasses & Hw).
  { intros i _. rewrite Hform. apply Qle_shift_div_l; lra. }
  exists out. split; [assumption|]. split; [assumption|].
  intros i Hi. rewrite (Hw i Hi). apply Hform.
Qed.

Lemma optimizePortfolio_alpha_zero_witness :
  exists out,
    optimizePortfolio items_ABC 0 = Ok out /\
    loop_passes items_ABC 0 = 1%nat /\
    forall i, (i < 3)%nat -> nth i (weights_of out) 0 == 1 / Qnat 3.
Proof.
  apply (optimizePortfolio_alpha_zero items_ABC 0);
    [discriminate|reflexivity].
Defined.

(** ** Any [alpha] *)

(** The function does not validate [alpha]; still, in exact rational
    arithmetic, for every [alpha], also below 0 or above 1, the weights
    of a non-empty input are non-negative and sum to 1. *)
Theorem optimizePortfolio_any_alpha items alpha :
  items <> [] ->
  exists out,
    optimizePortfolio items alpha = Ok out /\
    Forall (fun x => 0 <= x) (weights_of out) /\
    Qsum (weights_of out) == 1.
Proof.
  intros Hne.
  assert (Hn : (1 <= length items)%nat) by (apply nonempty_length; assumption).
  destruct (Qeq_dec alpha 1) as [Hone|Hnot].
  - destruct (optimizePortfolio_one items alpha Hne Hone)
      as (m & (Hm & _) & Hout).
    eexists. split; [exact Hout|]. rewrite weighted_weights. split.
    + apply Forall_forall. intros x Hx. apply in_map_iff in Hx.
      destruct Hx as (i & <- & _). destruct (Nat.eqb i m); lra.
    + apply Qsum_indicator; [apply seq_NoDup|].
      apply in_seq. rewrite length_map in Hm. lia.
  - destruct (optimizePortfolio_loop_weights items alpha Hne Hnot)
      as (out & Hout & Hw).
    exists out. split; [assumption|]. rewrite Hw.
    pose proof (while_loop_feasible alpha (map performance items) Hnot)
      as (_ & Hpos & Hsum).
    { rewrite length_map. assumption. }
    rewrite length_map in Hpos, Hsum. split; assumption.
Qed.

Lemma optimizePortfolio_any_alpha_witness :
  exists out,
    optimizePortfolio items_ABC (-3 # 1) = Ok out /\
    Forall (fun x => 0 <= x) (weights_of out) /\
    Qsum (weights_of out) == 1.
Proof.
  apply (optimizePortfolio_any_alpha items_ABC (-3 # 1)). discriminate.
Defined.

(** The guard [newActive.length === active.length] never fires: from any
    state whatever, a pass that finds a negative provisional weight drops
    at least that index. *)
Theorem loop_iter_never_unchanged alpha r ws a w :
  loop_iter alpha r ws a <> Break ExitUnchanged w.
Proof.
  unfold loop_iter.
  destruct (Nat.eqb (length a) 0); [discriminate|].
  rewrite provisional_spec.
  set (lambda := lambda_of alpha r a).
  set (ws1 := store_all (w_of alpha lambda r) a ws).
  destruct (existsb _ a) eqn:E; simpl.
  - destruct (shrink ws1 a) as [newActive weights2] eqn:Hs.
    assert (Hna : newActive = filter (positive_at ws1) a).
    { rewrite <- shrink_fst, Hs. reflexivity. }
    apply existsb_exists in E. destruct E as (i & Hi & Hneg).
    apply Qltb_true in Hneg.
    assert (Hp : positive_at ws1 i = false).
    { unfold positive_at. apply Qltb_false.
      destruct (Nat.lt_ge_cases i (length ws)) as [Hlt|Hge].
      - unfold ws1. rewrite nth_store_all_in by assumption. lra.
      - rewrite nth_overflow; [lra|].
        unfold ws1. rewrite store_all_length. assumption. }
    pose proof (filter_length_lt (positive_at ws1) a i Hi Hp) as Hlt.
    rewrite <- Hna in Hlt.
    destruct (Nat.eqb_spec (length newActive) (length a)); [lia|].
    discriminate.
  - destruct (Qle_bool _ _); discriminate.
Qed.

(** ** Weights follow performances *)

Lemma kkt_order alpha lambda r w i j :
  0 <= alpha -> alpha < 1 -> kkt alpha lambda r w ->
  (i < length r)%nat -> (j < length r)%nat ->
  nth i r 0 <= nth j r 0 -> nth i w 0 <= nth j w 0.
Proof.
  intros Ha0 Ha1 K Hi Hj Hr.
  pose proof (kkt_normal alpha lambda r w i Ha1 K Hi) as (Hi0 & _ & Hieq).
  pose proof (kkt_normal alpha lambda r w j Ha1 K Hj) as (Hj0 & Hjle & _).
  cbv zeta in *.
  destruct (tilt_mono alpha alpha Ha0 (Qle_refl alpha) Ha1) as [Ht _].
  set (t := alpha / (2 * (1 - alpha))) in *.
  destruct (Qlt_le_dec 0 (nth i w 0)) as [Hpos|Hz]; [|lra].
  specialize (Hieq Hpos).
  assert (Hd : 0 <= t * (nth j r 0 - nth i r 0))
    by (apply Qmult_le_0_compat; lra).
  lra.
Qed.

(** For [0 <= alpha < 1] an item of greater or equal performance never
    gets a smaller weight; items of equal performance get equal
    weights. *)
Theorem optimizePortfolio_weights_follow_performance items alpha i j :
  0 <= alpha -> alpha < 1 ->
  (i < length items)%nat -> (j < length items)%nat ->
  nth i (map performance items) 0 <= nth j (map performance items) 0 ->
  exists out,
    optimizePortfolio items alpha = Ok out /\
    nth i (weights_of out) 0 <= nth j (weights_of out) 0.
Proof.
  intros Ha0 Ha1 Hi Hj Hr.
  assert (Hne : items <> []) by (intros ->; simpl in Hi; lia).
  destruct (optimizePortfolio_kkt items alpha Hne Ha0 Ha1)
    as (out & lambda & Hout & K).
  exists out. split; [assumption|].
  apply (kkt_order alpha lambda (map performance items)); try assumption;
    rewrite length_map; assumption.
Qed.

Lemma optimizePortfolio_weights_follow_performance_witness :
  exists out,
    optimizePortfolio items_ABC (3 # 4) = Ok out /\
    nth 0 (weights_of out) 0 <= nth 2 (weights_of out) 0.
Proof.
  apply (optimizePortfolio_weights_follow_performance
           items_ABC (3 # 4) 0 2);
    [lra|lra|simpl; lia|simpl; lia|vm_compute; discriminate].
Defined.

Lemma Qsum_le_max w b :
  (forall j, (j < length w)%nat -> nth j w 0 <= b) ->
  Qsum w <= Qnat (length w) * b.
Proof.
  intros H. rewrite Qsum_nth.
  rewrite <- (length_seq (length w) 0) at 2.
  rewrite <- Qsum_map_const.
  apply Qsum_map_le. intros j Hj. apply in_seq in Hj. apply H. lia.
Qed.

(** In exact rational arithmetic, for [alpha] in [[0, 1]] the first item
    of greatest performance holds at least the uniform share [1 / n]. *)
Theorem optimizePortfolio_best_item_share items alpha m :
  0 <= alpha -> alpha <= 1 ->
  is_first_max (map performance items) m ->
  exists out,
    optimizePortfolio items alpha = Ok out /\
    1 / Qnat (length items) <= nth m (weights_of out) 0.
Proof.
  intros Ha0 Ha1 Hmax.
  pose proof Hmax as (Hm & Hle & _). rewrite length_map in Hm.
  assert (Hne : items <> []) by (intros ->; simpl in Hm; lia).
  assert (Hn : 0 < Qnat (length items))
    by (apply Qnat_pos; lia).
  destruct (Qeq_dec alpha 1) as [Hone|Hnot].
  - destruct (optimizePortfolio_one items alpha Hne Hone)
      as (m' & Hm' & Hout).
    assert (m' = m) by (eapply is_first_max_unique; eassumption). subst m'.
    eexists. split; [exact Hout|].
    rewrite weighted_weights, nth_map_seq by assumption.
    rewrite Nat.eqb_refl.
    apply Qle_shift_div_r; [assumption|].
    assert (1 <= Qnat (length items)).
    { unfold Qnat. change 1 with (inject_Z 1).
      rewrite <- Zle_Qle. lia. }
    lra.
  - assert (Hlt : alpha < 1) by lra.
    destruct (optimizePortfolio_kkt items alpha Hne Ha0 Hlt)
      as (out & lambda & Hout & K).
    exists out. split; [assumption|].
    pose proof K as (Hlen & Hsum & _). rewrite length_map in Hlen.
    assert (Hbound : Qsum (weights_of out)
                     <= Qnat (length (weights_of out))
                        * nth m (weights_of out) 0).
    { apply Qsum_le_max. intros j Hj. rewrite Hlen in Hj.
      apply (kkt_order alpha lambda (map performance items));
        try assumption; try (rewrite length_map; assumption).
      apply Hle. rewrite length_map. assumption. }
    rewrite Hsum, Hlen in Hbound.
    apply Qle_shift_div_r; [assumption|]. lra.
Qed.

Lemma optimizePortfolio_best_item_share_witness :
  exists out,
    optimizePortfolio items_ABC (1 # 2) = Ok out /\
    1 / Qnat 3 <= nth 1 (weights_of out) 0.
Proof.
  apply (optimizePortfolio_best_item_share items_ABC (1 # 2) 1);
    [lra|lra|exact items_ABC_first_max].
Defined.

(** ** The maximizer is unique *)

Lemma Qsum_nonneg_zero {A} (f : A -> Q) l :
  (forall x, In x l -> 0 <= f x) ->
  Qsum (map f l) <= 0 ->
  forall x, In x l -> f x == 0.
Proof.
  induction l as [|y t IH]; intros Hpos Hsum x Hx; [destruct Hx|].
  simpl in Hsum.
  assert (Hy : 0 <= f y) by (apply Hpos; left; reflexivity).
  assert (Ht : 0 <= Qsum (map f t)).
  { rewrite <- (Qsum_map_zero (fun _ : A => 0) t) by reflexivity.
    apply Qsum_map_le. intros z Hz. apply Hpos. right; assumption. }
  destruct Hx as [->|Hx].
  - lra.
  - apply IH; try assumption.
    + intros z Hz. apply Hpos. right; assumption.
    + lra.
Qed.

(** The gap to a point of the optimality conditions is at least
    [(1 - alpha)] times the squared distance. *)
Lemma kkt_gap alpha lambda r w v :
  alpha <= 1 ->
  kkt alpha lambda r w -> feasible (length r) v ->
  objective alpha r v
  + (1 - alpha)
    * Qsum (map (fun j => (nth j v 0 - nth j w 0) * (nth j v 0 - nth j w 0))
              (seq 0 (length r)))
  <= objective alpha r w.
Proof.
  intros Ha (Hlen & Hsum & Hk) (Hlenv & Hposv & Hsumv).
  rewrite !objective_nth by assumption.
  set (g := fun (u : list Q) (j : nat) =>
              alpha * (nth j r 0 * nth j u 0)
              - (1 - alpha) * (nth j u 0 * nth j u 0)).
  set (d := fun j : nat =>
              (nth j v 0 - nth j w 0) * (nth j v 0 - nth j w 0)).
  assert (Hpoint : forall j, In j (seq 0 (length r)) ->
            (g v j + (1 - alpha) * d j) + lambda * nth j w 0
            <= g w j + lambda * nth j v 0).
  { intros j Hj. apply in_seq in Hj.
    destruct (Hk j ltac:(lia)) as (Hw0 & Hle & Heq).
    assert (Hv0 : 0 <= nth j v 0).
    { rewrite Forall_forall in Hposv. apply Hposv. apply nth_In. lia. }
    unfold g, d.
    set (x := nth j w 0) in *. set (y := nth j v 0) in *.
    set (rj := nth j r 0) in *.
    destruct (Qlt_le_dec 0 x) as [Hpos|Hzero].
    - specialize (Heq Hpos).
      assert (E : alpha * rj == lambda + 2 * (1 - alpha) * x) by lra.
      assert (E1 : alpha * (rj * x) == (lambda + 2 * (1 - alpha) * x) * x)
        by (rewrite <- E; ring).
      assert (E2 : alpha * (rj * y) == (lambda + 2 * (1 - alpha) * x) * y)
        by (rewrite <- E; ring).
      rewrite E1, E2. nra.
    - assert (Ex : x == 0) by lra.
      assert (Hy : 0 <= (lambda - alpha * rj) * y).
      { apply Qmult_le_0_compat; [|assumption]. rewrite Ex in Hle. lra. }
      rewrite Ex. nra. }
  pose proof (Qsum_map_le _ _ _ Hpoint) as Hs.
  rewrite !Qsum_map_plus, !Qsum_map_scale in Hs.
  assert (Ew : Qsum (map (fun j => nth j w 0) (seq 0 (length r))) == 1).
  { rewrite <- Hlen, <- Qsum_nth. assumption. }
  assert (Ev : Qsum (map (fun j => nth j v 0) (seq 0 (length r))) == 1).
  { rewrite <- Hlenv, <- Qsum_nth. assumption. }
  rewrite Ew, Ev in Hs. unfold g, d in Hs |- *. nra.
Qed.

Lemma kkt_gap_unique alpha lambda r w v :
  alpha < 1 ->
  kkt alpha lambda r w -> feasible (length r) v ->
  objective alpha r w <= objective alpha r v ->
  forall j, nth j v 0 == nth j w 0.
Proof.
  intros Ha K Hv Hobj j.
  pose proof (kkt_gap alpha lambda r w v ltac:(lra) K Hv) as Hgap.
  set (d := fun j : nat =>
              (nth j v 0 - nth j w 0) * (nth j v 0 - nth j w 0)) in *.
  assert (Hsum : Qsum (map d (seq 0 (length r))) <= 0).
  { assert (0 <= Qsum (map d (seq 0 (length r)))).
    { rewrite <- (Qsum_map_zero (fun _ : nat => 0) (seq 0 (length r)))
        by reflexivity.
      apply Qsum_map_le. intros z _. apply Qsquare_nonneg. }
    nra. }
  destruct (Nat.lt_ge_cases j (length r)) as [Hlt|Hge].
  - assert (Hd : d j == 0).
    { apply (Qsum_nonneg_zero d (seq 0 (length r))); try assumption.
      - intros z _. apply Qsquare_nonneg.
      - apply in_seq. lia. }
    unfold d in Hd.
    destruct (Qmult_integral _ _ Hd); lra.
  - destruct K as (Hlw & _). destruct Hv as (Hlv & _).
    rewrite !nth_overflow by lia. reflexivity.
Qed.

(** In exact rational arithmetic, for [0 <= alpha < 1] the result is the
    only maximizer: a feasible vector whose objective value reaches that
    of the result equals the result, weight by weight. *)
Theorem optimizePortfolio_unique_maximizer items alpha v :
  items <> [] -> 0 <= alpha -> alpha < 1 ->
  feasible (length items) v ->
  exists out,
    optimizePortfolio items alpha = Ok out /\
    (objective alpha (map performance items) (weights_of out)
     <= objective alpha (map performance items) v ->
     forall j, nth j v 0 == nth j (weights_of out) 0).
Proof.
  intros Hne Ha0 Ha1 Hv.
  destruct (optimizePortfolio_kkt items alpha Hne Ha0 Ha1)
    as (out & lambda & Hout & K).
  exists out. split; [assumption|].
  intros Hobj. apply (kkt_gap_unique alpha lambda (map performance items));
    try assumption.
  rewrite length_map. assumption.
Qed.

Lemma optimizePortfolio_unique_maximizer_witness :
  exists out,
    optimizePortfolio items_ABC (1 # 2) = Ok out /\
    (objective (1 # 2) (map performance items_ABC) (weights_of out)
     <= objective (1 # 2) (map performance items_ABC) [1; 0; 0] ->
     forall j, nth j [1; 0; 0] 0 == nth j (weights_of out) 0).
Proof.
  apply (optimizePortfolio_unique_maximizer items_ABC (1 # 2) [1; 0; 0]);
    [discriminate|lra|lra|].
  split; [reflexivity|]. split; [|reflexivity].
  repeat constructor; discriminate.
Defined.

(** ** Only the differences of performance matter *)

(** The items with [k] added to every performance. *)
Definition shift_items (k : Q) (items : list Item) : list Item :=
  map (fun x => mkItem (sector x) (performance x + k)) items.

Lemma shift_items_length k items :
  length (shift_items k items) = length items.
Proof. apply length_map. Qed.

Lemma shift_items_nth k items : forall j,
  (j < length items)%nat ->
  nth j (map performance (shift_items k items)) 0
  = nth j (map performance items) 0 + k.
Proof.
  induction items as [|x t IH]; intros [|j] Hj; simpl in *; try lia.
  - reflexivity.
  - apply IH. lia.
Qed.

Lemma kkt_shift alpha lambda k r r' w :
  length r' = length r ->
  (forall j, (j < length r)%nat -> nth j r' 0 == nth j r 0 + k) ->
  kkt alpha lambda r w -> kkt alpha (lambda + alpha * k) r' w.
Proof.
  intros Hlen Hr (Hl & Hs & Hk). split; [congruence|]. split; [assumption|].
  intros j Hj. rewrite Hlen in Hj.
  destruct (Hk j Hj) as (H0 & Hle & Heq). rewrite (Hr j Hj).
  split; [assumption|]. split; [lra|]. intros Hpos.
  specialize (Heq Hpos). lra.
Qed.

Lemma kkt_unique alpha l1 l2 r w1 w2 :
  alpha < 1 -> kkt alpha l1 r w1 -> kkt alpha l2 r w2 ->
  forall j, nth j w2 0 == nth j w1 0.
Proof.
  intros Ha K1 K2.
  apply (kkt_gap_unique alpha l1 r w1 w2 Ha K1).
  - eapply kkt_feasible; eassumption.
  - apply (kkt_optimal alpha l2 r w2 w1); [lra|assumption|].
    eapply kkt_feasible; eassumption.
Qed.

Lemma is_first_max_shift k items m :
  is_first_max (map performance items) m ->
  is_first_max (map performance (shift_items k items)) m.
Proof.
  intros (Hm & Hle & Hlt). rewrite length_map in Hm.
  split; [rewrite length_map, shift_items_length; assumption|]. split.
  - intros j Hj. rewrite length_map, shift_items_length in Hj.
    rewrite !shift_items_nth by assumption.
    specialize (Hle j). rewrite length_map in Hle.
    specialize (Hle Hj). lra.
  - intros j Hj. rewrite !shift_items_nth by lia.
    specialize (Hlt j Hj). lra.
Qed.

(** In exact rational arithmetic, adding one constant to every
    performance does not change the weights, for [alpha] in [[0, 1]]. *)
Theorem optimizePortfolio_shift_invariant items alpha k :
  0 <= alpha -> alpha <= 1 ->
  exists out out',
    optimizePortfolio items alpha = Ok out /\
    optimizePortfolio (shift_items k items) alpha = Ok out' /\
    forall j, nth j (weights_of out') 0 == nth j (weights_of out) 0.
Proof.
  intros Ha0 Ha1.
  destruct items as [|x t].
  { exists [], []. repeat split; reflexivity. }
  set (items := x :: t).
  assert (Hne : items <> []) by discriminate.
  assert (Hne' : shift_items k items <> []) by discriminate.
  destruct (Qeq_dec alpha 1) as [Hone|Hnot].
  - destruct (optimizePortfolio_one items alpha Hne Hone)
      as (m & Hm & Hout).
    destruct (optimizePortfolio_one _ alpha Hne' Hone)
      as (m' & Hm' & Hout').
    assert (m' = m).
    { eapply is_first_max_unique; [exact Hm'|].
      apply is_first_max_shift. exact Hm. }
    subst m'.
    eexists. eexists. split; [exact Hout|]. split; [exact Hout'|].
    intros j. rewrite !weighted_weights, shift_items_length. reflexivity.
  - assert (Hlt : alpha < 1) by lra.
    destruct (optimizePortfolio_kkt items alpha Hne Ha0 Hlt)
      as (out & l1 & Hout & K).
    destruct (optimizePortfolio_kkt _ alpha Hne' Ha0 Hlt)
      as (out' & l2 & Hout' & K').
    exists out, out'. split; [assumption|]. split; [assumption|].
    apply (kkt_unique alpha (l1 + alpha * k) l2
             (map performance (shift_items k items))); try assumption.
    apply (kkt_shift alpha l1 k (map performance items)); try assumption.
    + rewrite !length_map. apply shift_items_length.
    + intros j Hj. rewrite length_map in Hj.
      rewrite shift_items_nth by assumption. reflexivity.
Qed.

Lemma optimizePortfolio_shift_invariant_witness :
  exists out out',
    optimizePortfolio items_ABC (1 # 2) = Ok out /\
    optimizePortfolio (shift_items (7 # 3) items_ABC) (1 # 2) = Ok out' /\
    forall j, nth j (weights_of out') 0 == nth j (weights_of out) 0.
Proof.
  apply (optimizePortfolio_shift_invariant items_ABC (1 # 2) (7 # 3));
    lra.
Defined.

(** ** Full concentration below [alpha = 1] *)

(** In exact rational arithmetic, for [0 <= alpha < 1], when one item
    leads every other item by at least [2 * (1 - alpha) / alpha] in
    performance, that is, when
    [2 * (1 - alpha) <= alpha * (r_m - r_j)] for every other [j], it gets
    the whole weight, as in the [alpha = 1] branch. *)
Theorem optimizePortfolio_concentrates items alpha m :
  0 <= alpha -> alpha < 1 ->
  (m < length items)%nat ->
  (forall j, (j < length items)%nat -> j <> m ->
     2 * (1 - alpha)
     <= alpha * (nth m (map performance items) 0
                 - nth j (map performance items) 0)) ->
  exists out,
    optimizePortfolio items alpha = Ok out /\
    forall j, (j < length items)%nat ->
      nth j (weights_of out) 0 == if Nat.eqb j m then 1 else 0.
Proof.
  intros Ha0 Ha1 Hm Hlead.
  assert (Hne : items <> []) by (intros ->; simpl in Hm; lia).
  destruct (optimizePortfolio_kkt items alpha Hne Ha0 Ha1)
    as (out & lambda & Hout & K).
  exists out. split; [assumption|].
  set (r := map performance items) in *.
  set (e := map (fun i => if Nat.eqb i m then 1 else 0)
              (seq 0 (length items))).
  assert (Ke : kkt alpha (alpha * nth m r 0 - 2 * (1 - alpha)) r e).
  { split; [unfold e, r; rewrite !length_map, length_seq; reflexivity|].
    split.
    - unfold e. apply Qsum_indicator; [apply seq_NoDup|].
      apply in_seq. lia.
    - intros j Hj. unfold r in Hj. rewrite length_map in Hj.
      unfold e. rewrite nth_map_seq by assumption.
      destruct (Nat.eqb_spec j m) as [->|Hjm].
      + split; [lra|]. split; [lra|]. intros _. ring.
      + specialize (Hlead j Hj Hjm). fold r in Hlead.
        split; [lra|]. split; [lra|]. intros Hc. lra. }
  intros j Hj.
  rewrite (kkt_unique alpha _ lambda r e (weights_of out) Ha1 Ke K j).
  unfold e. rewrite nth_map_seq by assumption. reflexivity.
Qed.

Lemma optimizePortfolio_concentrates_witness :
  exists out,
    optimizePortfolio items_ABC (99 # 100) = Ok out /\
    forall j, (j < 3)%nat ->
      nth j (weights_of out) 0 == if Nat.eqb j 1 then 1 else 0.
Proof.
  apply (optimizePortfolio_concentrates items_ABC (99 # 100) 1);
    [lra|lra|simpl; lia|].
  intros [|[|[|j]]] Hj Hne; simpl in Hj; try lia;
    vm_compute; discriminate.
Defined.

(** * The portfolio page: totals and bubbles

    [UserPortfolio] (the first component of the same source file)
    computes the totals of a list of holdings, asking the prediction
    service once per holding, and lays the sectors out as bubbles.  The
    answer to the i-th request is the value [mlModel i] of an arbitrary
    function: the price [resp.data.price], no price ([resp.data] or the
    price is null or undefined) or a rejected request. *)

Module UserPortfolio.

(** [interface Holding] *)
Record Holding : Type := mkHolding {
  ticker : string;
  shares : Q;
  sectorName : string;
  holdingId : Z;
  stockPrice : Q;
  isETF : bool
}.

Inductive Response : Type :=
| Price (price : Q)
| NoPrice
| Rejected.

(** [{ totalValue, totalNonETFValue, totalFutureValue }] *)
Record Totals : Type := mkTotals {
  totalValue : Q;
  totalNonETFValue : Q;
  totalFutureValue : Q
}.

(** The body of [for (const h of list)], for the i-th holding. *)
Definition totals_step (mlModel : nat -> Response) (i : nat)
    (h : Holding) (t : Totals) : Totals :=
  let currVal := shares h * stockPrice h in
  {| totalValue := totalValue t + currVal;
     totalNonETFValue :=
       if negb (isETF h) then totalNonETFValue t + currVal
       else totalNonETFValue t;
     totalFutureValue :=
       match mlModel i with
       | Price futurePrice => totalFutureValue t + futurePrice * shares h
       | NoPrice => totalFutureValue t + stockPrice h * shares h
       | Rejected => totalFutureValue t + currVal
       end |}.

Fixpoint totals_loop (mlModel : nat -> Response) (i : nat)
    (list : list Holding) (t : Totals) : Totals :=
  match list with
  | [] => t
  | h :: rest => totals_loop mlModel (S i) rest (totals_step mlModel i h t)
  end.

Definition getPortfolioTotalsWithFuture (mlModel : nat -> Response)
    (list : list Holding) : Totals :=
  totals_loop mlModel 0 list (mkTotals 0 0 0).

(** What the i-th prediction adds to the value of the i-th holding. *)
Definition predicted_gain (mlModel : nat -> Response)
    (list : list Holding) (i : nat) : Q :=
  match mlModel i, nth_error list i with
  | Price futurePrice, Some h => shares h * (futurePrice - stockPrice h)
  | _, _ => 0
  end.

(** [{ x, y, z, name }] *)
Record Bubble : Type := mkBubble {
  x : Q;
  y : Q;
  z : Q;
  name : string
}.

(** [Math.max(...l)] for a non-empty [l] (the callback that calls it runs
    on the elements of [arr] only, so never with an empty [arr]). *)
Definition max_of (l : list Q) : Q :=
  match l with
  | [] => 0
  | v :: t => fold_left Qmax t v
  end.

(** [sectorData.map((d, i, arr) => ...)] *)
Definition bubbleData (sectorData : list (string * Q)) : list Bubble :=
  mapi (fun d i =>
          let max := max_of (map snd sectorData) in
          {| x := (Qnat i + 1) * (100 / (Qnat (length sectorData) + 1));
             y := 50;
             z := (snd d / max) * 800;
             name := fst d |})
       sectorData.

Definition sample_holdings : list Holding :=
  [mkHolding "AAPL" 10 "Technology" 1 (150 # 1) false;
   mkHolding "SPY" 2 "Unknown" 2 (400 # 1) true].

Definition sample_sectors : list (string * Q) :=
  [("Technology"%string, 1500 # 1); ("Unknown"%string, 800 # 1)].

(** ** Totals *)

Lemma totals_loop_value mlModel list : forall i t,
  totalValue (totals_loop mlModel i list t)
  == totalValue t + Qsum (map (fun h => shares h * stockPrice h) list).
Proof.
  induction list as [|h rest IH]; intros i t; simpl.
  - ring.
  - rewrite IH. simpl. ring.
Qed.

Lemma totals_loop_non_etf mlModel list : forall i t,
  (forall h, In h list -> 0 <= shares h * stockPrice h) ->
  totalNonETFValue (totals_loop mlModel i list t) - totalNonETFValue t
  <= totalValue (totals_loop mlModel i list t) - totalValue t.
Proof.
  induction list as [|h rest IH]; intros i t Hpos; simpl.
  - lra.
  - assert (Hh : 0 <= shares h * stockPrice h)
      by (apply Hpos; left; reflexivity).
    specialize (IH (S i) (totals_step mlModel i h t)
                  (fun h' Hin => Hpos h' (or_intror Hin))).
    simpl in IH. destruct (isETF h); simpl in IH; lra.
Qed.

Lemma totals_loop_future mlModel list : forall i t,
  (forall j, (j < length list)%nat -> forall p, mlModel (i + j)%nat <> Price p) ->
  totalFutureValue (totals_loop mlModel i list t) - totalFutureValue t
  == totalValue (totals_loop mlModel i list t) - totalValue t.
Proof.
  induction list as [|h rest IH]; intros i t Hno; simpl.
  - ring.
  - assert (IH' : totalFutureValue
                    (totals_loop mlModel (S i) rest (totals_step mlModel i h t))
                  - totalFutureValue (totals_step mlModel i h t)
                  == totalValue
                       (totals_loop mlModel (S i) rest
                          (totals_step mlModel i h t))
                     - totalValue (totals_step mlModel i h t)).
    { apply IH. intros j Hj p.
      replace (S i + j)%nat with (i + S j)%nat by lia.
      apply Hno. simpl. lia. }
    pose proof (Hno 0%nat ltac:(simpl; lia)) as H0.
    rewrite Nat.add_0_r in H0.
    simpl in IH'.
    destruct (mlModel i) as [p| |];
      [exfalso; apply (H0 p); reflexivity| |]; lra.
Qed.

(** When no holding has a negative value, the non-ETF total does not
    exceed the total. *)
Theorem non_etf_total_le_total mlModel list :
  (forall h, In h list -> 0 <= shares h * stockPrice h) ->
  totalNonETFValue (getPortfolioTotalsWithFuture mlModel list)
  <= totalValue (getPortfolioTotalsWithFuture mlModel list).
Proof.
  intros Hpos. unfold getPortfolioTotalsWithFuture.
  pose proof (totals_loop_non_etf mlModel list 0 (mkTotals 0 0 0) Hpos) as H.
  simpl in H. lra.
Qed.

Lemma non_etf_total_le_total_witness :
  totalNonETFValue
    (getPortfolioTotalsWithFuture (fun _ => Rejected) sample_holdings)
  <= totalValue
       (getPortfolioTotalsWithFuture (fun _ => Rejected) sample_holdings).
Proof.
  apply (non_etf_total_le_total (fun _ => Rejected) sample_holdings).
  intros h [<-|[<-|[]]]; vm_compute; discriminate.
Defined.

(** When no request yields a price (each one is rejected or answers
    without a price), the predicted total equals the current total of all
    the holdings, ETFs included. *)
Theorem future_total_without_predictions mlModel list :
  (forall i, (i < length list)%nat -> forall p, mlModel i <> Price p) ->
  totalFutureValue (getPortfolioTotalsWithFuture mlModel list)
  == totalValue (getPortfolioTotalsWithFuture mlModel list).
Proof.
  intros Hno. unfold getPortfolioTotalsWithFuture.
  pose proof (totals_loop_future mlModel list 0 (mkTotals 0 0 0) Hno) as H.
  simpl in H. lra.
Qed.

Lemma future_total_without_predictions_witness :
  totalFutureValue
    (getPortfolioTotalsWithFuture (fun _ => NoPrice) sample_holdings)
  == totalValue
       (getPortfolioTotalsWithFuture (fun _ => NoPrice) sample_holdings).
Proof.
  apply (future_total_without_predictions (fun _ => NoPrice)
           sample_holdings).
  intros i _ p. discriminate.
Defined.

Lemma totals_loop_gain mlModel list : forall i t,
  totalFutureValue (totals_loop mlModel i list t) - totalFutureValue t
  == totalValue (totals_loop mlModel i list t) - totalValue t
     + Qsum (map (fun j =>
                    match mlModel (i + j)%nat, nth_error list j with
                    | Price p, Some h => shares h * (p - stockPrice h)
                    | _, _ => 0
                    end)
               (seq 0 (length list))).
Proof.
  induction list as [|h rest IH]; intros i t.
  - simpl. ring.
  - specialize (IH (S i) (totals_step mlModel i h t)).
    change (totals_loop mlModel i (h :: rest) t)
      with (totals_loop mlModel (S i) rest (totals_step mlModel i h t)).
    change (length (h :: rest)) with (S (length rest)).
    rewrite <- cons_seq, <- seq_shift, map_cons, map_map.
    change (Qsum (?a :: ?l)) with (a + Qsum l).
    rewrite Nat.add_0_r.
    rewrite (Qsum_map_ext
               (fun j => match mlModel (i + S j)%nat,
                               nth_error (h :: rest) (S j) with
                         | Price p, Some h0 => shares h0 * (p - stockPrice h0)
                         | _, _ => 0
                         end)
               (fun j => match mlModel (S i + j)%nat, nth_error rest j with
                         | Price p, Some h0 => shares h0 * (p - stockPrice h0)
                         | _, _ => 0
                         end)).
    + set (G := Qsum (map _ (seq 0 (length rest)))) in *.
      set (t1 := totals_step mlModel i h t) in *.
      assert (Hv : totalValue t1 == totalValue t + shares h * stockPrice h)
        by reflexivity.
      assert (Hf : totalFutureValue t1
                   == totalFutureValue t + shares h * stockPrice h
                      + match mlModel i with
                        | Price p => shares h * (p - stockPrice h)
                        | _ => 0
                        end).
      { unfold t1, totals_step. simpl. destruct (mlModel i); ring. }
      simpl nth_error. destruct (mlModel i) as [p| |]; lra.
    + intros j _. replace (i + S j)%nat with (S i + j)%nat by lia.
      reflexivity.
Qed.

(** In exact rational arithmetic, the predicted total exceeds the current
    total by the sum, over the holdings whose request yields a price, of
    [shares] times the
    difference between that price and the current price; ETF holdings
    are counted like the others. *)
Theorem future_total_gain mlModel list :
  totalFutureValue (getPortfolioTotalsWithFuture mlModel list)
  == totalValue (getPortfolioTotalsWithFuture mlModel list)
     + Qsum (map (predicted_gain mlModel list) (seq 0 (length list))).
Proof.
  unfold getPortfolioTotalsWithFuture.
  pose proof (totals_loop_gain mlModel list 0 (mkTotals 0 0 0)) as H.
  simpl in H. unfold predicted_gain. lra.
Qed.

(** ** Bubbles *)

Lemma Qnat_lt i n : (i < n)%nat -> Qnat i < Qnat n.
Proof. intros H. unfold Qnat. rewrite <- Zlt_Qlt. lia. Qed.

Lemma Qnat_nonneg i : 0 <= Qnat i.
Proof.
  unfold Qnat. change 0 with (inject_Z 0). rewrite <- Zle_Qle. lia.
Qed.

Lemma nth_error_mapi {A B} (f : A -> nat -> B) l i b :
  nth_error (mapi f l) i = Some b ->
  exists d, nth_error l i = Some d /\ b = f d i.
Proof.
  intros H. destruct (nth_error l i) as [d|] eqn:E.
  - exists d. split; [reflexivity|].
    unfold mapi in H. rewrite (nth_error_mapi_from f l 0 i d E) in H.
    inversion H. reflexivity.
  - apply nth_error_None in E.
    assert (Hs : nth_error (mapi f l) i <> None) by congruence.
    apply nth_error_Some in Hs. unfold mapi in Hs.
    rewrite mapi_from_length in Hs. lia.
Qed.






(** The bubbles are laid out strictly inside the horizontal range
    [[0, 100]], from left to right in the order of the sectors. *)
Theorem bubble_positions sectorData i b :
  nth_error (bubbleData sectorData) i = Some b ->
  0 < x b /\ x b < 100 /\
  forall j c, nth_error (bubbleData sectorData) j = Some c ->
    (i < j)%nat -> x b < x c.
Proof.
  intros Hb. unfold bubbleData in *.
  destruct (nth_error_mapi _ _ _ _ Hb) as (d & Hd & ->). simpl.
  assert (Hi : (i < length sectorData)%nat)
    by (apply nth_error_Some; congruence).
  pose proof (Qnat_lt i _ Hi) as Hlt.
  pose proof (Qnat_nonneg i) as Hi0.
  set (n := Qnat (length sectorData)) in *.
  assert (Hstep : 0 < 100 / (n + 1)) by (apply Qlt_shift_div_l; lra).
  assert (Hn : (n + 1) * (100 / (n + 1)) == 100) by (field; lra).
  split; [nra|]. split; [nra|].
  intros j c Hc Hij.
  destruct (nth_error_mapi _ _ _ _ Hc) as (d' & _ & ->). simpl.
  pose proof (Qnat_lt i j Hij). fold n. nra.
Qed.

Lemma bubble_positions_witness :
  exists b,
    nth_error (bubbleData sample_sectors) 0 = Some b /\
    0 < x b /\ x b < 100 /\
    forall j c, nth_error (bubbleData sample_sectors) j = Some c ->
      (0 < j)%nat -> x b < x c.
Proof.
  eexists. split; [reflexivity|].
  apply (bubble_positions sample_sectors 0). reflexivity.
Defined.



End UserPortfolio.

(** * The correlation of two return series

    [computeCorrelation] (in [MultiStockSearchChart], the third component
    of the same source file) takes a square root, so its numbers are read
    as exact reals ([R]).  The loop runs over the indices of [a] and reads
    [b] at the same indices: the embedding is that of the source as long
    as [b] is at least as long as [a] (its caller builds all the series
    with one length). *)

Module Correlation.

Local Open Scope R_scope.

(** [a.reduce((s, v) => s + v, 0)] *)
Definition sum (a : list R) : R := fold_left Rplus a 0.

(** The body of the [for] loop, on [(num, denA, denB)]. *)
Definition corr_step (a b : list R) (meanA meanB : R)
    (st : R * R * R) (i : nat) : R * R * R :=
  let da := nth i a 0 - meanA in
  let db := nth i b 0 - meanB in
  (fst (fst st) + da * db, snd (fst st) + da * da, snd st + db * db).

Definition computeCorrelation (a b : list R) : R :=
  let n := length a in
  let meanA := sum a / INR n in
  let meanB := sum b / INR n in
  let st := fold_left (corr_step a b meanA meanB) (seq 0 n) (0, 0, 0) in
  let num := fst (fst st) in
  let denA := snd (fst st) in
  let denB := snd st in
  if Req_dec_T denA 0 then 0
  else if Req_dec_T denB 0 then 0
  else num / sqrt (denA * denB).

(** The sum of a list of reals. *)
Definition RSum (l : list R) : R := fold_right Rplus 0 l.

Lemma corr_fold a b mA mB l : forall st,
  fold_left (corr_step a b mA mB) l st
  = (fst (fst st)
     + RSum (map (fun i => (nth i a 0 - mA) * (nth i b 0 - mB)) l),
     snd (fst st)
     + RSum (map (fun i => (nth i a 0 - mA) * (nth i a 0 - mA)) l),
     snd st
     + RSum (map (fun i => (nth i b 0 - mB) * (nth i b 0 - mB)) l)).
Proof.
  induction l as [|i t IH]; intros [[n0 A0] B0]; simpl.
  - f_equal; [f_equal|]; ring.
  - rewrite IH. simpl. f_equal; [f_equal|]; ring.
Qed.

Lemma RSum_squares_nonneg (f : nat -> R) l :
  0 <= RSum (map (fun i => f i * f i) l).
Proof.
  induction l as [|i t IH]; simpl; [lra|].
  pose proof (Rle_0_sqr (f i)) as H. unfold Rsqr in H. lra.
Qed.

Lemma cauchy_step n A B u v :
  0 <= A -> 0 <= B -> n * n <= A * B ->
  (n + u * v) * (n + u * v) <= (A + u * u) * (B + v * v).
Proof.
  intros HA HB Hn.
  assert (Hcross : 2 * n * u * v <= A * (v * v) + B * (u * u)).
  { set (S := A * (v * v) + B * (u * u)).
    set (T := 2 * n * u * v).
    assert (HS : 0 <= S).
    { unfold S. pose proof (Rle_0_sqr u). pose proof (Rle_0_sqr v).
      unfold Rsqr in *. nra. }
    assert (Hsq : T * T <= S * S).
    { unfold S, T.
      pose proof (Rle_0_sqr (A * (v * v) - B * (u * u))) as H1.
      pose proof (Rle_0_sqr (u * v)) as H2. unfold Rsqr in *.
      assert (H3 : 0 <= (u * v) * (u * v) * (A * B - n * n)) by
        (apply Rmult_le_pos; lra).
      nra. }
    destruct (Rle_dec T S) as [|Hgt]; [assumption|].
    exfalso. assert (S < T) by lra. nra. }
  nra.
Qed.

Lemma cauchy_schwarz (f g : nat -> R) l :
  RSum (map (fun i => f i * g i) l) * RSum (map (fun i => f i * g i) l)
  <= RSum (map (fun i => f i * f i) l) * RSum (map (fun i => g i * g i) l).
Proof.
  induction l as [|i t IH]; simpl; [lra|].
  pose proof (RSum_squares_nonneg f t). pose proof (RSum_squares_nonneg g t).
  set (n := RSum (map (fun i => f i * g i) t)) in *.
  set (A := RSum (map (fun i => f i * f i) t)) in *.
  set (B := RSum (map (fun i => g i * g i) t)) in *.
  pose proof (cauchy_step n A B (f i) (g i)) as Hc.
  replace ((f i * g i + n) * (f i * g i + n))
    with ((n + f i * g i) * (n + f i * g i)) by ring.
  replace ((f i * f i + A) * (g i * g i + B))
    with ((A + f i * f i) * (B + g i * g i)) by ring.
  apply Hc; assumption.
Qed.

(** For two series of one length (or [b] longer than [a]) the result
    lies between -1 and 1. *)
Theorem computeCorrelation_bounded a b :
  (length a <= length b)%nat ->
  -1 <= computeCorrelation a b <= 1.
Proof.
  intros _. unfold computeCorrelation.
  rewrite corr_fold. simpl fst. simpl snd.
  set (mA := sum a / INR (length a)).
  set (mB := sum b / INR (length a)).
  set (f := fun i => nth i a 0 - mA). set (g := fun i => nth i b 0 - mB).
  set (l := seq 0 (length a)).
  pose proof (cauchy_schwarz f g l) as Hcs.
  pose proof (RSum_squares_nonneg f l) as HA.
  pose proof (RSum_squares_nonneg g l) as HB.
  unfold f, g in Hcs, HA, HB.
  set (n := RSum (map (fun i => (nth i a 0 - mA) * (nth i b 0 - mB)) l)) in *.
  set (A := RSum (map (fun i => (nth i a 0 - mA) * (nth i a 0 - mA)) l)) in *.
  set (B := RSum (map (fun i => (nth i b 0 - mB) * (nth i b 0 - mB)) l)) in *.
  destruct (Req_dec_T (0 + A) 0) as [|HA0]; [lra|].
  destruct (Req_dec_T (0 + B) 0) as [|HB0]; [lra|].
  assert (HD : 0 < (0 + A) * (0 + B)) by nra.
  pose proof (sqrt_lt_R0 _ HD) as Hs.
  pose proof (sqrt_sqrt ((0 + A) * (0 + B)) ltac:(lra)) as Hss.
  set (s := sqrt ((0 + A) * (0 + B))) in *.
  assert (Hq : (0 + n) / s * s = 0 + n) by (field; lra).
  assert (Hn : - s <= 0 + n <= s) by nra.
  set (q := (0 + n) / s) in *. split; nra.
Qed.

Lemma computeCorrelation_bounded_witness :
  -1 <= computeCorrelation [1; 2; 4] [3; 1; 2] <= 1.
Proof.
  apply (computeCorrelation_bounded [1; 2; 4] [3; 1; 2]). simpl. lia.
Defined.

(** The result does not depend on the order of the two series. *)
Theorem computeCorrelation_symmetric a b :
  length a = length b ->
  computeCorrelation a b = computeCorrelation b a.
Proof.
  intros Hlen. unfold computeCorrelation.
  rewrite !corr_fold. simpl fst. simpl snd. rewrite <- Hlen.
  set (mA := sum a / INR (length a)).
  set (mB := sum b / INR (length a)).
  set (l := seq 0 (length a)).
  assert (Hnum : RSum (map (fun i => (nth i b 0 - mB) * (nth i a 0 - mA)) l)
                 = RSum (map (fun i => (nth i a 0 - mA) * (nth i b 0 - mB)) l)).
  { f_equal. apply map_ext. intros i. ring. }
  rewrite Hnum.
  set (n := RSum (map (fun i => (nth i a 0 - mA) * (nth i b 0 - mB)) l)).
  set (A := RSum (map (fun i => (nth i a 0 - mA) * (nth i a 0 - mA)) l)).
  set (B := RSum (map (fun i => (nth i b 0 - mB) * (nth i b 0 - mB)) l)).
  destruct (Req_dec_T (0 + A) 0), (Req_dec_T (0 + B) 0); try reflexivity.
  rewrite (Rmult_comm (0 + B)). reflexivity.
Qed.

Lemma computeCorrelation_symmetric_witness :
  computeCorrelation [1; 2; 4] [3; 1; 2]
  = computeCorrelation [3; 1; 2] [1; 2; 4].
Proof.
  apply (computeCorrelation_symmetric [1; 2; 4] [3; 1; 2]). reflexivity.
Defined.

Lemma fold_left_Rplus l : forall s, fold_left Rplus l s = s + RSum l.
Proof.
  induction l as [|v t IH]; intros s; simpl; [ring|].
  rewrite IH. ring.
Qed.

Lemma RSum_constant c l :
  (forall v, In v l -> v = c) -> RSum l = INR (length l) * c.
Proof.
  induction l as [|v t IH]; intros H.
  - simpl. ring.
  - change (RSum (v :: t)) with (v + RSum t).
    change (length (v :: t)) with (S (length t)).
    rewrite S_INR, IH by (intros; apply H; right; assumption).
    rewrite (H v) by (left; reflexivity). ring.
Qed.

Lemma mean_constant c l :
  l <> [] -> (forall v, In v l -> v = c) ->
  sum l / INR (length l) = c.
Proof.
  intros Hne H. unfold sum. rewrite fold_left_Rplus, (RSum_constant c l H).
  assert (INR (length l) <> 0).
  { apply not_0_INR. destruct l; [congruence|discriminate]. }
  field. assumption.
Qed.

Lemma RSum_map_zero {A} (f : A -> R) l :
  (forall i, In i l -> f i = 0) -> RSum (map f l) = 0.
Proof.
  induction l as [|i t IH]; intros H; simpl; [reflexivity|].
  rewrite (H i) by (left; reflexivity).
  rewrite IH by (intros; apply H; right; assumption). ring.
Qed.

Lemma deviations_constant c l :
  (forall v, In v l -> v = c) ->
  RSum (map (fun i => (nth i l 0 - sum l / INR (length l))
                      * (nth i l 0 - sum l / INR (length l)))
          (seq 0 (length l))) = 0.
Proof.
  intros H. apply RSum_map_zero. intros i Hi. apply in_seq in Hi.
  assert (Hne : l <> []) by (intros ->; simpl in Hi; lia).
  rewrite (mean_constant c l Hne H).
  rewrite (H (nth i l 0)) by (apply nth_In; lia). ring.
Qed.

(** In exact real arithmetic, when one of two series of the same length
    is constant, the result is 0: the division is not attempted. *)
Theorem computeCorrelation_constant a b c :
  length a = length b ->
  (forall v, In v a -> v = c) \/ (forall v, In v b -> v = c) ->
  computeCorrelation a b = 0.
Proof.
  intros Hlen Hconst. unfold computeCorrelation.
  rewrite corr_fold. simpl fst. simpl snd.
  destruct Hconst as [Ha|Hb].
  - rewrite (deviations_constant c a Ha).
    destruct (Req_dec_T (0 + 0) 0) as [|Hn]; [reflexivity|].
    exfalso. apply Hn. ring.
  - rewrite Hlen. rewrite (deviations_constant c b Hb).
    destruct (Req_dec_T _ 0); [reflexivity|].
    destruct (Req_dec_T (0 + 0) 0) as [|Hn]; [reflexivity|].
    exfalso. apply Hn. ring.
Qed.

Lemma computeCorrelation_constant_witness :
  computeCorrelation [5; 5; 5] [3; 1; 2] = 0.
Proof.
  apply (computeCorrelation_constant [5; 5; 5] [3; 1; 2] 5);
    [reflexivity|].
  left. intros v [<-|[<-|[<-|[]]]]; reflexivity.
Defined.

Lemma RSum_squares_zero (f : nat -> R) l :
  RSum (map (fun i => f i * f i) l) = 0 ->
  forall i, In i l -> f i = 0.
Proof.
  induction l as [|j t IH]; intros H i Hi; [destruct Hi|].
  simpl in H.
  pose proof (RSum_squares_nonneg f t) as Ht.
  pose proof (Rle_0_sqr (f j)) as Hj. unfold Rsqr in Hj.
  destruct Hi as [->|Hi].
  - assert (Hz : f i * f i = 0) by lra.
    destruct (Rmult_integral _ _ Hz); assumption.
  - apply IH; [lra|assumption].
Qed.

(** A series that is not constant has correlation 1 with itself. *)
Theorem computeCorrelation_self a i j :
  (i < length a)%nat -> (j < length a)%nat ->
  nth i a 0 <> nth j a 0 ->
  computeCorrelation a a = 1.
Proof.
  intros Hi Hj Hdiff. unfold computeCorrelation.
  rewrite corr_fold. simpl fst. simpl snd.
  set (m := sum a / INR (length a)).
  set (A := RSum (map (fun i => (nth i a 0 - m) * (nth i a 0 - m))
                    (seq 0 (length a)))).
  pose proof (RSum_squares_nonneg (fun i => nth i a 0 - m)
                (seq 0 (length a))) as HA. fold A in HA.
  assert (HA0 : A <> 0).
  { intros Hz.
    pose proof (RSum_squares_zero (fun i => nth i a 0 - m)
                  (seq 0 (length a)) Hz) as Hall.
    assert (Ei : nth i a 0 - m = 0) by (apply Hall; apply in_seq; lia).
    assert (Ej : nth j a 0 - m = 0) by (apply Hall; apply in_seq; lia).
    apply Hdiff. lra. }
  destruct (Req_dec_T (0 + A) 0) as [|_]; [lra|].
  destruct (Req_dec_T (0 + A) 0) as [|_]; [lra|].
  replace (0 + A) with A by ring.
  rewrite sqrt_square by assumption. field. assumption.
Qed.

Lemma computeCorrelation_self_witness :
  computeCorrelation [1; 2; 4] [1; 2; 4] = 1.
Proof.
  apply (computeCorrelation_self [1; 2; 4] 0 1); simpl; try lia. lra.
Defined.

End Correlation.

(** * The optimizer on binary64 numbers

    The same function with every [number] read as an IEEE 754 binary64
    value (the primitive floats, rounding to nearest even, as JavaScript
    computes).  The definitions repeat those of the first part line for
    line; only the number type and its operations change.  They show
    where rounding, absorption and overflow make the code leave the
    behaviour it has in exact arithmetic. *)

Module Doubles.

Import PrimFloat.
Local Open Scope float_scope.

(** [{ sector: string; performance: number }] *)
Record Item : Type := mkItem {
  sector : string;
  performance : float
}.

(** [{ sector: string; performance: number; weight: number }] *)
Record WeightedItem : Type := mkWeightedItem {
  w_sector : string;
  w_performance : float;
  weight : float
}.

(** [items[i].performance] *)
Definition performance_at (items : list Item) (i : nat) : result float :=
  match nth_error items i with
  | Some x => Ok (performance x)
  | None => TypeError
  end.

(** [weights[i] = v] for an index inside the array. *)
Fixpoint store (ws : list float) (i : nat) (v : float) : list float :=
  match ws, i with
  | [], _ => []
  | _ :: t, O => v :: t
  | x :: t, S j => x :: store t j v
  end.

(** [freeCount] used as a number: the count [k] as a binary64 value,
    exact for every length below [2 ^ 53]. *)
Fixpoint of_nat (k : nat) : float :=
  match k with
  | O => 0
  | S k' => of_nat k' + 1
  end.

Inductive LoopStep : Type :=
| Break (e : Exit) (weights : list float)
| Continue (weights : list float) (active : list nat).

(** [active.reduce((acc, i) => acc + r[i], 0)] *)
Definition sumR (r : list float) (active : list nat) : float :=
  fold_left (fun acc i => acc + nth i r 0) active 0.

(** [(alpha * sumR - 2 * (1 - alpha)) / freeCount] *)
Definition lambda_of (alpha : float) (r : list float) (active : list nat)
    : float :=
  (alpha * sumR r active - 2 * (1 - alpha)) / of_nat (length active).

(** [(alpha * r[i] - lambda) / (2 * (1 - alpha))] *)
Definition w_of (alpha lambda : float) (r : list float) (i : nat) : float :=
  (alpha * nth i r 0 - lambda) / (2 * (1 - alpha)).

Definition provisional (alpha lambda : float) (r : list float)
    (weights : list float) (active : list nat) : list float * bool :=
  fold_left
    (fun (st : list float * bool) i =>
       let w_i := w_of alpha lambda r i in
       (store (fst st) i w_i, if w_i <? 0 then true else snd st))
    active (weights, false).

(** [for (const i of active) sumW += weights[i]] *)
Definition sumW (weights : list float) (active : list nat) : float :=
  fold_left (fun acc i => acc + nth i weights 0) active 0.

(** [for (const i of active) weights[i] = 1 / freeCount] *)
Definition uniform (weights : list float) (active : list nat) : list float :=
  fold_left (fun ws i => store ws i (1 / of_nat (length active)))
    active weights.

(** [for (const i of active) weights[i] /= sumW] *)
Definition normalize (s : float) (weights : list float) (active : list nat)
    : list float :=
  fold_left (fun ws i => store ws i (nth i ws 0 / s)) active weights.

(** The loop building [newActive] and zeroing the dropped indices. *)
Definition shrink (weights : list float) (active : list nat)
    : list nat * list float :=
  fold_left
    (fun (st : list nat * list float) i =>
       if 0 <? nth i (snd st) 0
       then (fst st ++ [i], snd st)
       else (fst st, store (snd st) i 0))
    active ([], weights).

(** One pass through the body of [while (true)]. *)
Definition loop_iter (alpha : float) (r : list float)
    (weights : list float) (active : list nat) : LoopStep :=
  let freeCount := length active in
  if Nat.eqb freeCount 0 then Break ExitEmpty weights
  else
    let lambda := lambda_of alpha r active in
    let (weights1, anyNegative) := provisional alpha lambda r weights active in
    if negb anyNegative then
      let s := sumW weights1 active in
      if s <=? 0
      then Break ExitUniform (uniform weights1 active)
      else Break ExitNormalized (normalize s weights1 active)
    else
      let (newActive, weights2) := shrink weights1 active in
      if Nat.eqb (length newActive) (length active)
      then Break ExitUnchanged weights2
      else Continue weights2 newActive.

(** The removal loop never lengthens the active set. *)
Lemma shrink_fold_length_d active : forall na ws,
  Nat.le
    (length (fst (fold_left
         (fun (st : list nat * list float) i =>
            if 0 <? nth i (snd st) 0
            then (fst st ++ [i], snd st)
            else (fst st, store (snd st) i 0))
         active (na, ws))))
    (length na + length active)%nat.
Proof.
  induction active as [|i l IH]; intros na ws; simpl; [lia|].
  destruct (0 <? nth i ws 0).
  - eapply Nat.le_trans; [apply IH|]. simpl. rewrite length_app. simpl. lia.
  - eapply Nat.le_trans; [apply IH|]. simpl. lia.
Qed.

Lemma loop_iter_shrinks_d alpha r weights active weights' active' :
  loop_iter alpha r weights active = Continue weights' active' ->
  (length active' < length active)%nat.
Proof.
  unfold loop_iter.
  destruct (Nat.eqb (length active) 0); [discriminate|].
  destruct (provisional _ _ _ _ _) as [weights1 anyNegative].
  destruct (negb anyNegative).
  - destruct (_ <=? _); discriminate.
  - destruct (shrink weights1 active) as [newActive weights2] eqn:Hs.
    destruct (Nat.eqb (length newActive) (length active)) eqn:Hlen;
      [discriminate|].
    intros H; inversion H; subst; clear H.
    apply Nat.eqb_neq in Hlen.
    pose proof (shrink_fold_length_d active [] weights1) as Hle.
    fold (shrink weights1 active) in Hle. rewrite Hs in Hle.
    simpl in Hle. lia.
Qed.

(** [while (true) { ... }]: the final [weights] and the number of passes. *)
Equations? while_loop (alpha : float) (r : list float)
    (weights : list float) (active : list nat) : list float * nat
    by wf (length active) lt :=
  while_loop alpha r weights active
    with inspect (loop_iter alpha r weights active) := {
    | exist _ (Break _ w) _ => (w, 1%nat)
    | exist _ (Continue w a) Hstep =>
        let res := while_loop alpha r w a in (fst res, S (snd res)) }.
Proof.
  eapply loop_iter_shrinks_d; eassumption.
Qed.

Definition find_max (items : list Item) : result (nat * float) :=
  maxPerf0 <- performance_at items 0 ;;
  for_loop
    (fun i (st : nat * float) =>
       p <- performance_at items i ;;
       if snd st <? p then Ok (i, p) else Ok st)
    1 (length items - 1) (0%nat, maxPerf0).

Definition optimizePortfolio (items : list Item) (alpha : float)
    : result (list WeightedItem) :=
  let n := length items in
  if Nat.eqb n 0 then Ok []
  else if alpha =? 1 then
    st <- find_max items ;;
    let maxIdx := fst st in
    Ok (mapi (fun x i =>
                {| w_sector := sector x;
                   w_performance := performance x;
                   weight := if Nat.eqb i maxIdx then 1 else 0 |})
             items)
  else
    let r := map performance items in
    let weights := repeat 0 n in
    let active := seq 0 n in
    let weights' := fst (while_loop alpha r weights active) in
    Ok (mapi (fun x i =>
                {| w_sector := sector x;
                   w_performance := performance x;
                   weight := nth i weights' 0 |})
             items).

(** The weights of a call, and their sum as the code would add them. *)
Definition weights_of (res : result (list WeightedItem)) : list float :=
  match res with
  | Ok out => map weight out
  | TypeError => []
  end.

Definition total (ws : list float) : float := fold_left PrimFloat.add ws 0.

(** Items of the given performances. *)
Definition items_of (r : list float) : list Item :=
  map (mkItem "X") r.

(** ** Where rounding changes the result *)

(** C1, as stated.  The performances 3, 3, 3 with
    [alpha = 1 - 2 ^ -52], inside [0 <= alpha < 1]: [2 * (1 - alpha)] is
    absorbed when [lambda] is computed, every provisional weight comes out
    as -1, all three indices are dropped and the result is 0, 0, 0.  Its
    weights sum to 0: it is not a feasible point of the quadratic program,
    hence not an optimal solution. *)
Lemma optimum_lost_by_rounding :
  (0 <=? 0x1.ffffffffffffep-1) = true /\
  (0x1.ffffffffffffep-1 <? 1) = true /\
  fst (provisional 0x1.ffffffffffffep-1
         (lambda_of 0x1.ffffffffffffep-1 [3; 3; 3] [0; 1; 2]%nat)
         [3; 3; 3] [0; 0; 0] [0; 1; 2]%nat)
  = [-1; -1; -1] /\
  loop_iter 0x1.ffffffffffffep-1 [3; 3; 3] [0; 0; 0] [0; 1; 2]%nat
  = Continue [0; 0; 0] [] /\
  weights_of (optimizePortfolio (items_of [3; 3; 3]) 0x1.ffffffffffffep-1)
  = [0; 0; 0] /\
  total [0; 0; 0] = 0.
Proof. repeat split; vm_compute; reflexivity. Qed.

(** C2, as stated.  The performances [2 ^ 54], [2 ^ 54], [2 ^ 54 - 4]
    with [alpha = 0.5]: the result is 0, 0, 0, and the sum of the weights,
    0, is not within [2 ^ -20] of 1 (so not within 1e-9). *)
Lemma weights_sum_to_zero :
  (0 <=? 0.5) = true /\ (0.5 <=? 1) = true /\
  weights_of
    (optimizePortfolio (items_of [0x1p54; 0x1p54; 0x1p54 - 4]) 0.5)
  = [0; 0; 0] /\
  (abs (total [0; 0; 0] - 1) <=? 0x1p-20) = false.
Proof. repeat split; vm_compute; reflexivity. Qed.


(** C8, as stated.  On the performances 3, 3, 3 the first item holds a
    third of the weight at [alpha = 0.5] and nothing at the greater
    [alpha = 1 - 2 ^ -52].  And with a tie for the greatest performance,
    0.5 and 0.5, the second item, which is also an item of greatest
    performance, holds a half at [alpha = 0.5] and nothing at
    [alpha = 1]. *)
Lemma weight_of_best_item_decreases :
  ((0 <=? 0.5) = true /\ (0.5 <=? 0x1.ffffffffffffep-1) = true /\
   (0x1.ffffffffffffep-1 <=? 1) = true /\
   (nth 0 (weights_of (optimizePortfolio (items_of [3; 3; 3])
                         0x1.ffffffffffffep-1)) 0
    <? nth 0 (weights_of (optimizePortfolio (items_of [3; 3; 3]) 0.5)) 0)
   = true) /\
  (nth 1 (weights_of (optimizePortfolio (items_of [0.5; 0.5]) 0.5)) 0 = 0.5 /\
   nth 1 (weights_of (optimizePortfolio (items_of [0.5; 0.5]) 1)) 0 = 0).
Proof. repeat split; vm_compute; reflexivity. Qed.

(** The pass of C9 on binary64 numbers: the performances 4, 1, 0 with
    [alpha = 0.5] give the provisional weights 1.5, 0, -0.5, and the index
    of weight 0 is dropped with the negative one. *)
Example zero_weight_dropped_on_doubles :
  fst (provisional 0.5 (lambda_of 0.5 [4; 1; 0] [0; 1; 2]%nat) [4; 1; 0]
         [0; 0; 0] [0; 1; 2]%nat)
  = [1.5; 0; -0.5] /\
  loop_iter 0.5 [4; 1; 0] [0; 0; 0] [0; 1; 2]%nat
  = Continue [1.5; 0; 0] [0%nat].
Proof. split; vm_compute; reflexivity. Qed.

End Doubles.
